(** * gi_cleaner: the ignore-rule resolution engine of [src/gi_cleaner/main.py]

    A shallow embedding of the Python program and the proofs of its
    specification.  The program walks a directory tree, classifies every
    file and directory against the [.gitignore] files found in the tree,
    and removes what is ignored.

    Conventions of the embedding.
    - A [pathlib.Path] is its tuple of [parts]; an absolute path starts
      with the anchor ["/"].
    - A Python exception is a value of [exn]; code that can raise returns
      a [result].
    - The pattern matcher ([pathspec]) is an interface, [Matcher].
    - The filesystem seen by the scan is a tree of regular files and
      directories (no symbolic links); a regular file is what opening
      and reading it as UTF-8 text gives.
    - The removal primitives ([Path.unlink], [shutil.rmtree]), path
      resolution, the string methods [strip] and [lower] and the
      command-line parser ([argparse]) are an interface, [Platform]. *)

From Stdlib Require Import Permutation.
From stdpp Require Import base option list strings gmap pretty sorting.

(* ===================================================================== *)
(** ** Exceptions and results *)
(* ===================================================================== *)

Inductive exn : Type :=
  | ValueError (msg : string)
  | UnicodeDecodeError
  | GitWildMatchPatternError
  | OSError (msg : string)
  | EOFError
  | SystemExit (status : Z).

Inductive result (A : Type) : Type :=
  | Ok (a : A)
  | Raise (e : exn).
Arguments Ok {A} a.
Arguments Raise {A} e.

#[global] Instance result_ret : MRet result := fun _ a => Ok a.
#[global] Instance result_bind : MBind result := fun _ _ f m =>
  match m with
  | Ok a => f a
  | Raise e => Raise e
  end.

(** What a loop body that may [return] hands back to its function. *)
Inductive ctl (R A : Type) : Type :=
  | Returned (r : R)
  | Fallthrough (a : A).
Arguments Returned {R A} r.
Arguments Fallthrough {R A} a.

(* ===================================================================== *)
(** ** Paths ([pathlib.PurePosixPath]) *)
(* ===================================================================== *)

Abbreviation Path := (list string).

(** [p / name] *)
Definition joinpath (p : Path) (name : string) : Path := p ++ [name].

(** [p.relative_to(other)]: the parts of [p] below [other]; [ValueError]
    when [other] is not a prefix of [p]. *)
Fixpoint relative_to (p other : Path) {struct other} : result Path :=
  match other with
  | [] => Ok p
  | o :: other' =>
      match p with
      | x :: p' =>
          if decide (x = o) then relative_to p' other'
          else Raise (ValueError "is not in the subpath")
      | [] => Raise (ValueError "is not in the subpath")
      end
  end.

(** [p.parent]: the path without its last part; the anchor and the empty
    relative path are their own parents. *)
Definition parent (p : Path) : Path :=
  match p with
  | [a] => if decide (a = "/") then p else []
  | _ => removelast p
  end.

(** [p.name]: the last part, the empty string when there is none. *)
Definition name (p : Path) : string := default "" (last p).

(** [str(p)] *)
Definition str (p : Path) : string :=
  match p with
  | [] => "."
  | a :: rest =>
      if decide (a = "/") then "/" +:+ String.concat "/" rest
      else String.concat "/" p
  end.

(** A resolved path: it starts with the anchor. *)
Definition absolute (p : Path) : Prop := ∃ rest, p = "/" :: rest.

(* ===================================================================== *)
(** ** The pattern matcher ([pathspec]) *)
(* ===================================================================== *)

(** [PathSpec.from_lines("gitwildmatch", lines)] and [spec.match_file(s)].
    The pattern grammar is not part of the program.  [from_lines] gives
    no matcher when a line is no valid pattern: pathspec then raises
    [GitWildMatchPatternError]. *)
Class Matcher : Type := {
  PathSpec : Type;
  from_lines : list string → option PathSpec;
  match_file : PathSpec → string → bool;
}.

(* ===================================================================== *)
(** ** The classifier *)
(* ===================================================================== *)

Section Classifier.
Context `{Matcher}.

(** The block [if current_check_dir in gitignore_specs: ...
    spec.match_file(str(relative_path))] of [is_file_ignored]. *)
Definition file_scope_matches (file_path current_check_dir : Path)
    (gitignore_specs : gmap Path PathSpec) : result bool :=
  match gitignore_specs !! current_check_dir with
  | Some spec =>
      relative_path ← relative_to file_path current_check_dir;
      mret (match_file spec (str relative_path))
  | None => mret false
  end.

(** [for part in relative_to_root.parent.parts] of [is_file_ignored]. *)
Fixpoint is_file_ignored_loop (file_path : Path)
    (gitignore_specs : gmap Path PathSpec)
    (parts : list string) (current_check_dir : Path)
    : result (ctl bool Path) :=
  match parts with
  | [] => mret (Fallthrough current_check_dir)
  | part :: parts' =>
      hit ← file_scope_matches file_path current_check_dir gitignore_specs;
      if hit : bool then mret (Returned true)
      else is_file_ignored_loop file_path gitignore_specs parts'
             (joinpath current_check_dir part)
  end.

Definition is_file_ignored (file_path root_directory : Path)
    (gitignore_specs : gmap Path PathSpec) : result bool :=
  relative_to_root ← relative_to file_path root_directory;
  (* Check each .gitignore from root to the file's parent directory *)
  r ← is_file_ignored_loop file_path gitignore_specs
        (parent relative_to_root) root_directory;
  match r with
  | Returned b => mret b
  | Fallthrough current_check_dir =>
      (* Check the final directory *)
      hit ← file_scope_matches file_path current_check_dir gitignore_specs;
      if hit : bool then mret true
      else
        (* Also check the file's own directory *)
        let file_parent := parent file_path in
        match gitignore_specs !! file_parent with
        | Some spec =>
            if match_file spec (name file_path) then mret true
            else mret false
        | None => mret false
        end
  end.

(** The block inside the loop of [is_directory_ignored]: the directory
    is tested with a trailing slash and without. *)
Definition dir_scope_matches (dir_path current_check_dir : Path)
    (gitignore_specs : gmap Path PathSpec) : result bool :=
  match gitignore_specs !! current_check_dir with
  | Some spec =>
      relative_path ← relative_to dir_path current_check_dir;
      let dir_pattern := str relative_path +:+ "/" in
      mret (match_file spec dir_pattern || match_file spec (str relative_path))
  | None => mret false
  end.

(** [for part in relative_to_root.parts] of [is_directory_ignored]. *)
Fixpoint is_directory_ignored_loop (dir_path : Path)
    (gitignore_specs : gmap Path PathSpec)
    (parts : list string) (current_check_dir : Path) : result bool :=
  match parts with
  | [] => mret false
  | part :: parts' =>
      hit ← dir_scope_matches dir_path current_check_dir gitignore_specs;
      if hit : bool then mret true
      else is_directory_ignored_loop dir_path gitignore_specs parts'
             (joinpath current_check_dir part)
  end.

Definition is_directory_ignored (dir_path root_directory : Path)
    (gitignore_specs : gmap Path PathSpec) : result bool :=
  relative_to_root ← relative_to dir_path root_directory;
  is_directory_ignored_loop dir_path gitignore_specs
    relative_to_root root_directory.

End Classifier.

(* ===================================================================== *)
(** ** The filesystem *)
(* ===================================================================== *)

(** What a regular file is to [open(p, "r", encoding="utf-8")] and
    [readlines()]: text with its lines, bytes that are no UTF-8
    ([UnicodeDecodeError]), or a file that cannot be opened or read
    ([OSError]: permission denied, input/output error). *)
Inductive file_content : Type :=
  | Text (lines : list string)
  | Undecodable
  | Unreadable (error : string).

(** A regular file, or a directory with its listing in the order
    [os.scandir] reports it. *)
#[local] Unset Elimination Schemes.
Inductive node : Type :=
  | File (content : file_content)
  | Dir (entries : list (string * node)).
#[local] Set Elimination Schemes.

Definition is_dir_node (n : node) : bool :=
  match n with
  | Dir _ => true
  | File _ => false
  end.

Fixpoint entry_named (x : string) (es : list (string * node)) : option node :=
  match es with
  | [] => None
  | (y, n) :: es' => if decide (y = x) then Some n else entry_named x es'
  end.

Fixpoint lookup_node (t : node) (rel : Path) : option node :=
  match rel with
  | [] => Some t
  | x :: rel' =>
      match t with
      | Dir es => c ← entry_named x es; lookup_node c rel'
      | File _ => None
      end
  end.

(** The filesystem is the tree below the anchor ["/"]. *)
Abbreviation FS := node.

Definition stat (fs : FS) (p : Path) : option node :=
  match p with
  | a :: rel => if decide (a = "/") then lookup_node fs rel else None
  | [] => None
  end.

(** [p.exists()] and [p.is_dir()] *)
Definition exists_ (fs : FS) (p : Path) : bool :=
  match stat fs p with
  | Some _ => true
  | None => false
  end.

Definition is_dir (fs : FS) (p : Path) : bool :=
  match stat fs p with
  | Some (Dir _) => true
  | _ => false
  end.

(** [with open(p, "r", encoding="utf-8") as f: f.readlines()] *)
Definition read_text (content : file_content) : result (list string) :=
  match content with
  | Text lines => mret lines
  | Undecodable => Raise UnicodeDecodeError
  | Unreadable error => Raise (OSError error)
  end.

Definition readlines (fs : FS) (p : Path) : result (list string) :=
  match stat fs p with
  | Some (File content) => read_text content
  | Some (Dir _) => Raise (OSError "Is a directory")
  | None => Raise (OSError "No such file or directory")
  end.

(** The two lists [os.walk] yields for a directory. *)
Definition dirnames (es : list (string * node)) : list string :=
  (filter (λ e, is_dir_node e.2) es).*1.

Definition filenames (es : list (string * node)) : list string :=
  (filter (λ e, ¬ is_dir_node e.2) es).*1.

(** [os.walk(top)], top-down.  [body] is the body of the [for] loop: it
    receives the directory, its sub-directory names and its file names,
    and hands back the sub-directory names it left in the list it was
    given; [os.walk] then descends into the sub-directories named in that
    list.  Both loops of the program only remove names from the list, and
    the names of a listing are distinct, so this is the descent, in
    listing order, into the entries whose names are still in the list.
    A path that is no directory yields nothing. *)
Section Walk.
Context {S : Type}.
Variable body : Path → list string → list string → S → result (S * list string).

Fixpoint walk (top : Path) (n : node) (st : S) : result S :=
  match n with
  | File _ => mret st
  | Dir es =>
      r ← body top (dirnames es) (filenames es) st;
      (fix walk_entries (es : list (string * node)) (st : S) : result S :=
         match es with
         | [] => mret st
         | (x, child) :: es' =>
             st' ← (if is_dir_node child && bool_decide (x ∈ r.2)
                    then walk (joinpath top x) child st
                    else mret st);
             walk_entries es' st'
         end) es r.1
  end.

(** The descent of [walk] through a listing, as a function of its own. *)
Fixpoint walk_entries (top : Path) (kept : list string)
    (es : list (string * node)) (st : S) : result S :=
  match es with
  | [] => mret st
  | (x, child) :: es' =>
      st' ← (if is_dir_node child && bool_decide (x ∈ kept)
             then walk (joinpath top x) child st
             else mret st);
      walk_entries top kept es' st'
  end.

Definition os_walk (fs : FS) (top : Path) (st : S) : result S :=
  match stat fs top with
  | Some n => walk top n st
  | None => mret st
  end.
End Walk.

(** [list.remove(x)]: drops the first occurrence, [ValueError] when there
    is none. *)
Fixpoint list_remove (x : string) (l : list string) : result (list string) :=
  match l with
  | [] => Raise (ValueError "list.remove(x): x not in list")
  | y :: l' =>
      if decide (y = x) then mret l'
      else l'' ← list_remove x l'; mret (y :: l'')
  end.

(* ===================================================================== *)
(** ** The rule collector and the tree scanner *)
(* ===================================================================== *)

Record scan_state : Type := ScanState {
  ignored_files : list Path;
  ignored_directories : list Path;
  skip_directories : gset Path;
}.

Section Scanner.
Context `{Matcher}.

Definition load_gitignore_patterns (fs : FS) (directory : Path)
    : result (option PathSpec) :=
  let gitignore_path := joinpath directory ".gitignore" in
  if negb (exists_ fs gitignore_path) then mret None
  else
    lines ← readlines fs gitignore_path;
    match from_lines lines with
    | Some spec => mret (Some spec)
    | None => Raise GitWildMatchPatternError
    end.

(** The body of the loop of [collect_all_gitignore_specs]; the listing
    is left as it is. *)
Definition collect_body (fs : FS) (current_path : Path)
    (directories files : list string) (gitignore_specs : gmap Path PathSpec)
    : result (gmap Path PathSpec * list string) :=
  spec ← load_gitignore_patterns fs current_path;
  match spec with
  | Some spec => mret (<[current_path := spec]> gitignore_specs, directories)
  | None => mret (gitignore_specs, directories)
  end.

Definition collect_all_gitignore_specs (fs : FS) (root_directory : Path)
    : result (gmap Path PathSpec) :=
  os_walk (collect_body fs) fs root_directory ∅.

Variable root_directory : Path.
Variable gitignore_specs : gmap Path PathSpec.

(** [for dir_name in directories] *)
Fixpoint check_directories (current_path : Path) (directories : list string)
    (st : scan_state) (dirs_to_remove : list string)
    : result (scan_state * list string) :=
  match directories with
  | [] => mret (st, dirs_to_remove)
  | dir_name :: directories' =>
      let dir_path := joinpath current_path dir_name in
      b ← is_directory_ignored dir_path root_directory gitignore_specs;
      if b : bool then
        check_directories current_path directories'
          {| ignored_files := ignored_files st;
             ignored_directories := ignored_directories st ++ [dir_path];
             skip_directories := {[dir_path]} ∪ skip_directories st |}
          (dirs_to_remove ++ [dir_name])
      else check_directories current_path directories' st dirs_to_remove
  end.

(** [for dir_name in dirs_to_remove: directories.remove(dir_name)] *)
Fixpoint remove_all (dirs_to_remove directories : list string)
    : result (list string) :=
  match dirs_to_remove with
  | [] => mret directories
  | dir_name :: rest =>
      directories' ← list_remove dir_name directories;
      remove_all rest directories'
  end.

(** [for file_name in files] *)
Fixpoint check_files (current_path : Path) (files : list string)
    (st : scan_state) : result scan_state :=
  match files with
  | [] => mret st
  | file_name :: files' =>
      let file_path := joinpath current_path file_name in
      b ← is_file_ignored file_path root_directory gitignore_specs;
      if b : bool then
        check_files current_path files'
          {| ignored_files := ignored_files st ++ [file_path];
             ignored_directories := ignored_directories st;
             skip_directories := skip_directories st |}
      else check_files current_path files' st
  end.

(** The body of the loop of [find_ignored_files]. *)
Definition scan_body (current_path : Path) (directories files : list string)
    (st : scan_state) : result (scan_state * list string) :=
  (* Skip .git directory *)
  directories ← (if bool_decide (".git" ∈ directories)
                 then list_remove ".git" directories
                 else mret directories);
  (* Skip already marked ignored directories *)
  if bool_decide (current_path ∈ skip_directories st) then mret (st, [])
  else
    (* Check directories *)
    r ← check_directories current_path directories st [];
    (* Remove ignored directories from further traversal *)
    directories ← remove_all r.2 directories;
    (* Check files *)
    st ← check_files current_path files r.1;
    mret (st, directories).

End Scanner.

Section FindIgnored.
Context `{Matcher}.

(** The second loop of [find_ignored_files]: the decision pass. *)
Definition decision_pass (fs : FS) (root_directory : Path)
    (gitignore_specs : gmap Path PathSpec) : result (list Path * list Path) :=
  st ← os_walk (scan_body root_directory gitignore_specs) fs root_directory
         {| ignored_files := []; ignored_directories := [];
            skip_directories := ∅ |};
  mret (ignored_files st, ignored_directories st).

Definition find_ignored_files (fs : FS) (root_directory : Path)
    : result (list Path * list Path) :=
  gitignore_specs ← collect_all_gitignore_specs fs root_directory;
  if decide (size gitignore_specs = 0) then mret ([], [])
  else decision_pass fs root_directory gitignore_specs.
End FindIgnored.

(* ===================================================================== *)
(** ** The platform and the I/O monad *)
(* ===================================================================== *)

(** The parsed command line. *)
Record Args : Type := {
  directory : string;
  dry_run : bool;
  yes : bool;
}.

(** What [parser.parse_args()] comes to: the parsed arguments, or the
    end of the process, [parser.exit(status)]: argparse writes the
    version or the help and leaves with status 0, or writes the usage
    and the error and leaves with status 2.  [printed] is what it
    writes, in order, each text with its stream. *)
Inductive stream : Type := Stdout | Stderr.

Inductive parse_result : Type :=
  | Parsed (args : Args)
  | Exits (status : Z) (printed : list (stream * string)).

(** What the program calls and does not define.
    - The removal primitives [Path.unlink] and [shutil.rmtree]: a
      removal returns the filesystem it leaves and, when it raised
      [OSError], the error's message; a failed [rmtree] may have removed
      part of the tree.
    - [Path(s).resolve()].
    - [str.strip] and [str.lower], which know all of Unicode.
    - [argparse], for the parser built in [main] (options [-d],
      [-n], [-y], [-v] and the [-h] that argparse adds), applied to the
      command line. *)
Class Platform : Type := {
  unlink : Path → FS → FS * option string;
  rmtree : Path → FS → FS * option string;
  resolve : string → Path;
  strip : string → string;
  lower : string → string;
  argparse : list string → parse_result;
}.

(** What the program does to its environment, in order. *)
Inductive event : Type :=
  | EUnlink (p : Path) (error : option string)
  | ERmtree (p : Path) (error : option string)
  | EScan (top : Path)
  | EStdout (line : string)
  | EStderr (line : string).

Record world : Type := World {
  fs : FS;
  stdin : list string;
  trace : list event;
}.

Definition M (A : Type) : Type := world → world * result A.

#[global] Instance M_ret : MRet M := fun _ a w => (w, Ok a).
#[global] Instance M_bind : MBind M := fun _ _ f m w =>
  match m w with
  | (w', Ok a) => f a w'
  | (w', Raise e) => (w', Raise e)
  end.

Definition lift {A} (r : result A) : M A := fun w => (w, r).

Definition raise {A} (e : exn) : M A := lift (Raise e).

Definition get_world : M world := fun w => (w, Ok w).

Definition emit (e : event) : M unit := fun w =>
  ({| fs := fs w; stdin := stdin w; trace := trace w ++ [e] |}, Ok tt).

(** [print(line)] and [print(line, file=sys.stderr)] *)
Definition print (line : string) : M unit := emit (EStdout line).
Definition print_err (line : string) : M unit := emit (EStderr line).

(** [input(prompt)]: the prompt goes to standard output, the next line of
    standard input is returned; [EOFError] when there is none. *)
Definition input (prompt : string) : M string := fun w =>
  let w' := {| fs := fs w; stdin := tail (stdin w);
               trace := trace w ++ [EStdout prompt] |} in
  match stdin w with
  | line :: _ => (w', Ok line)
  | [] => (w', Raise EOFError)
  end.

(** [try: body except OSError as error: handler(error)] *)
Definition try_except_OSError {A} (body : M A) (handler : string → M A) : M A :=
  fun w =>
    match body w with
    | (w', Raise (OSError error)) => handler error w'
    | r => r
    end.

Fixpoint for_each {A B} (f : B → A → M B) (acc : B) (l : list A) : M B :=
  match l with
  | [] => mret acc
  | x :: l' => acc' ← f acc x; for_each f acc' l'
  end.

(** [sorted]: the stable sort; [lt y x] says that [y] goes strictly
    before [x]. *)
Fixpoint insert_sorted {A} (lt : A → A → bool) (x : A) (l : list A) : list A :=
  match l with
  | [] => [x]
  | y :: l' => if lt y x then y :: insert_sorted lt x l' else x :: y :: l'
  end.

Definition sorted {A} (lt : A → A → bool) (l : list A) : list A :=
  foldr (insert_sorted lt) [] l.

(** [sorted(l, key=key, reverse=True)] *)
Definition sorted_key_reverse {A} (key : A → nat) (l : list A) : list A :=
  sorted (λ y x, (key x <? key y)%nat) l.

(** The order of paths: lexicographic on the parts. *)
Fixpoint path_ltb (p q : Path) : bool :=
  match p, q with
  | [], [] => false
  | [], _ :: _ => true
  | _ :: _, [] => false
  | a :: p', b :: q' =>
      match String.compare a b with
      | Lt => true
      | Gt => false
      | Eq => path_ltb p' q'
      end
  end.

Definition nl : string := String (Ascii.ascii_of_nat 10) "".

(** [s.strip()] and [s.lower()] on ASCII text, for the examples. *)
Definition is_space (c : Ascii.ascii) : bool :=
  let n := Ascii.nat_of_ascii c in
  ((9 <=? n) && (n <=? 13) || (28 <=? n) && (n <=? 32))%nat.

Fixpoint lstrip (s : list Ascii.ascii) : list Ascii.ascii :=
  match s with
  | c :: s' => if is_space c then lstrip s' else s
  | [] => []
  end.

Definition ascii_strip (s : string) : string :=
  String.string_of_list_ascii
    (rev (lstrip (rev (lstrip (String.list_ascii_of_string s))))).

Definition lower_ascii (c : Ascii.ascii) : Ascii.ascii :=
  let n := Ascii.nat_of_ascii c in
  if ((65 <=? n) && (n <=? 90))%nat then Ascii.ascii_of_nat (n + 32) else c.

Definition ascii_lower (s : string) : string :=
  String.string_of_list_ascii (lower_ascii <$> String.list_ascii_of_string s).

Section Program.
Context `{Matcher} `{Platform}.

Definition call_unlink (p : Path) : M unit := fun w =>
  let r := unlink p (fs w) in
  ({| fs := r.1; stdin := stdin w; trace := trace w ++ [EUnlink p r.2] |},
   match r.2 with
   | None => Ok tt
   | Some error => Raise (OSError error)
   end).

Definition call_rmtree (p : Path) : M unit := fun w =>
  let r := rmtree p (fs w) in
  ({| fs := r.1; stdin := stdin w; trace := trace w ++ [ERmtree p r.2] |},
   match r.2 with
   | None => Ok tt
   | Some error => Raise (OSError error)
   end).

(** [find_ignored_files] on the filesystem of the moment. *)
Definition scan (root_directory : Path) : M (list Path * list Path) :=
  emit (EScan root_directory);;
  w ← get_world;
  lift (find_ignored_files (fs w) root_directory).

Definition display_ignored_items (ignored_files ignored_directories : list Path)
    (root_directory : Path) : M unit :=
  let total_items := length ignored_files + length ignored_directories in
  if decide (total_items = 0) then
    print "No ignored files or directories found."
  else
    print (nl +:+ "Found " +:+ pretty total_items +:+ " ignored item(s):" +:+ nl);;
    (if decide (ignored_directories = []) then mret tt
     else
       print "Directories:";;
       for_each (λ _ dir_path,
           relative_path ← lift (relative_to dir_path root_directory);
           print ("  [DIR]  " +:+ str relative_path +:+ "/"))
         tt (sorted path_ltb ignored_directories));;
    (if decide (ignored_files = []) then mret tt
     else
       print (nl +:+ "Files:");;
       for_each (λ _ file_path,
           relative_path ← lift (relative_to file_path root_directory);
           print ("  [FILE] " +:+ str relative_path))
         tt (sorted path_ltb ignored_files));;
    print "".

(** [while True: response = input(...)...]; every round consumes a line
    of standard input, so the lines still pending bound the rounds. *)
Fixpoint confirm_deletion_rounds (pending : list string) : M bool :=
  response ← input "Do you want to delete these items? (yes/no): ";
  let response := lower (strip response) in
  if bool_decide (response ∈ ["yes"; "y"]) then mret true
  else if bool_decide (response ∈ ["no"; "n"]) then mret false
  else
    print "Please enter 'yes' or 'no'.";;
    match pending with
    | _ :: pending' => confirm_deletion_rounds pending'
    | [] => raise EOFError
    end.

Definition confirm_deletion : M bool :=
  w ← get_world;
  confirm_deletion_rounds (stdin w).

(** One round of [for file_path in ignored_files]. *)
Definition delete_file (root_directory : Path) (dry_run : bool)
    (deleted_files : nat) (file_path : Path) : M nat :=
  relative_path ← lift (relative_to file_path root_directory);
  try_except_OSError
    ((if dry_run then mret tt else call_unlink file_path);;
     print ("Deleted file: " +:+ str relative_path);;
     mret (S deleted_files))
    (λ error,
       print_err ("Error deleting " +:+ str relative_path +:+ ": " +:+ error);;
       mret deleted_files).

(** One round of [for dir_path in sorted_directories]. *)
Definition delete_directory (root_directory : Path) (dry_run : bool)
    (deleted_directories : nat) (dir_path : Path) : M nat :=
  relative_path ← lift (relative_to dir_path root_directory);
  try_except_OSError
    ((if dry_run then mret tt else call_rmtree dir_path);;
     print ("Deleted directory: " +:+ str relative_path +:+ "/");;
     mret (S deleted_directories))
    (λ error,
       print_err ("Error deleting " +:+ str relative_path +:+ "/: " +:+ error);;
       mret deleted_directories).

Definition delete_items (ignored_files ignored_directories : list Path)
    (root_directory : Path) (dry_run : bool) : M (nat * nat) :=
  (* Delete files first *)
  deleted_files ← for_each (delete_file root_directory dry_run) 0 ignored_files;
  (* Delete directories (sorted by depth, deepest first) *)
  let sorted_directories :=
    sorted_key_reverse (λ p : Path, length p) ignored_directories in
  deleted_directories ←
    for_each (delete_directory root_directory dry_run) 0 sorted_directories;
  mret (deleted_files, deleted_directories).

(** [args = parser.parse_args()]: [SystemExit] leaves [main] when
    argparse ends the process, after what argparse writes. *)
Definition written (o : stream * string) : event :=
  match o.1 with
  | Stdout => EStdout o.2
  | Stderr => EStderr o.2
  end.

Definition parse_args (argv : list string) : M Args :=
  match argparse argv with
  | Parsed args => mret args
  | Exits status printed =>
      for_each (λ _ o, emit (written o)) tt printed;;
      raise (SystemExit status)
  end.

(** [main] from [root_directory = Path(args.directory).resolve()] on. *)
Definition main_body (args : Args) : M Z :=
  let root_directory := resolve (directory args) in
  w ← get_world;
  if negb (exists_ (fs w) root_directory) then
    print_err ("Error: Directory '" +:+ str root_directory +:+ "' does not exist.");;
    mret 1%Z
  else if negb (is_dir (fs w) root_directory) then
    print_err ("Error: '" +:+ str root_directory +:+ "' is not a directory.");;
    mret 1%Z
  (* Check if .gitignore exists in root *)
  else if negb (exists_ (fs w) (joinpath root_directory ".gitignore")) then
    print_err ("Error: No .gitignore found in '" +:+ str root_directory +:+ "'.");;
    mret 1%Z
  else
    print ("Scanning directory: " +:+ str root_directory);;
    found ← scan root_directory;
    let ignored_files := found.1 in
    let ignored_directories := found.2 in
    display_ignored_items ignored_files ignored_directories root_directory;;
    if bool_decide (ignored_files = []) && bool_decide (ignored_directories = []) then
      mret 0%Z
    else if dry_run args then
      print "Dry run mode - no files were deleted.";;
      mret 0%Z
    else
      declined ← (if negb (yes args)
                  then confirmed ← confirm_deletion; mret (negb confirmed)
                  else mret false);
      if declined : bool then
        print "Deletion cancelled.";;
        mret 0%Z
      else
        deleted ← delete_items ignored_files ignored_directories
                    root_directory false;
        print (nl +:+ "Deleted " +:+ pretty deleted.1 +:+ " file(s) and "
               +:+ pretty deleted.2 +:+ " directory(ies).");;
        mret 0%Z.

(** [main()] on the command line [argv] ([sys.argv[1:]]). *)
Definition main (argv : list string) : M Z :=
  args ← parse_args argv;
  main_body args.


End Program.

(* ===================================================================== *)
(** ** What the classifier computes *)
(* ===================================================================== *)

(** The verdict of one scope: the matcher registered at [scope_dir], if
    any, applied to the path [rest] relative to that directory. *)
Definition file_scope_hit `{Matcher} (gitignore_specs : gmap Path PathSpec)
    (scope_dir rest : Path) : bool :=
  match gitignore_specs !! scope_dir with
  | Some spec => match_file spec (str rest)
  | None => false
  end.

Definition dir_scope_hit `{Matcher} (gitignore_specs : gmap Path PathSpec)
    (scope_dir rest : Path) : bool :=
  match gitignore_specs !! scope_dir with
  | Some spec => match_file spec (str rest +:+ "/") || match_file spec (str rest)
  | None => false
  end.

(** A file below the root at [dirs ++ [fname]] is tested against the
    scopes at the first [length dirs + 1] prefixes of its path: the root,
    ..., its parent. *)
Definition file_verdict `{Matcher} (gitignore_specs : gmap Path PathSpec)
    (root : Path) (dirs : list string) (fname : string) : bool :=
  existsb (λ k, file_scope_hit gitignore_specs (root ++ take k dirs)
                  (drop k dirs ++ [fname]))
    (seq 0 (S (length dirs))).

(** A directory below the root at [rel] is tested against the scopes at
    the strict prefixes of its path: the root, ..., its parent. *)
Definition dir_verdict `{Matcher} (gitignore_specs : gmap Path PathSpec)
    (root : Path) (rel : Path) : bool :=
  existsb (λ k, dir_scope_hit gitignore_specs (root ++ take k rel) (drop k rel))
    (seq 0 (length rel)).

(* ===================================================================== *)
(** ** What the scanner computes *)
(* ===================================================================== *)

(** A tree as a filesystem has it: the names in a directory are distinct. *)
Fixpoint wf_node (n : node) : bool :=
  match n with
  | File _ => true
  | Dir es => bool_decide (NoDup es.*1) && forallb (λ e, wf_node e.2) es
  end.

(** The verdict of [is_file_ignored] on a path below the root. *)
Definition file_ignored `{Matcher} (gitignore_specs : gmap Path PathSpec)
    (root : Path) (rel : Path) : bool :=
  match is_file_ignored (root ++ rel) root gitignore_specs with
  | Ok b => b
  | Raise _ => false
  end.

(** The entry named [x] of the directory at [rel] below the root. *)
Definition child_path (root rel : Path) (x : string) : Path := root ++ rel ++ [x].

(** What one visit of the scanner adds to the two lists, for the
    directory at [rel] below the root with listing [es]. *)
Definition here_files `{Matcher} (gitignore_specs : gmap Path PathSpec)
    (root rel : Path) (es : list (string * node)) : list Path :=
  child_path root rel <$>
    filter (λ x, file_ignored gitignore_specs root (rel ++ [x])) (filenames es).

Definition here_dirs `{Matcher} (gitignore_specs : gmap Path PathSpec)
    (root rel : Path) (es : list (string * node)) : list Path :=
  child_path root rel <$>
    filter (λ x, dir_verdict gitignore_specs root (rel ++ [x]))
      (filter (λ x, x ≠ ".git") (dirnames es)).

(** The sub-directories the scanner descends into: directories other
    than [.git] that are not classified ignored. *)
Definition descends `{Matcher} (gitignore_specs : gmap Path PathSpec)
    (root rel : Path) (e : string * node) : bool :=
  is_dir_node e.2 && bool_decide (e.1 ≠ ".git")
  && negb (dir_verdict gitignore_specs root (rel ++ [e.1])).

Fixpoint scan_files `{Matcher} (gitignore_specs : gmap Path PathSpec)
    (root rel : Path) (n : node) : list Path :=
  match n with
  | File _ => []
  | Dir es =>
      here_files gitignore_specs root rel es ++
      concat (map (λ e, if descends gitignore_specs root rel e
                        then scan_files gitignore_specs root (rel ++ [e.1]) e.2
                        else []) es)
  end.

Fixpoint scan_dirs `{Matcher} (gitignore_specs : gmap Path PathSpec)
    (root rel : Path) (n : node) : list Path :=
  match n with
  | File _ => []
  | Dir es =>
      here_dirs gitignore_specs root rel es ++
      concat (map (λ e, if descends gitignore_specs root rel e
                        then scan_dirs gitignore_specs root (rel ++ [e.1]) e.2
                        else []) es)
  end.

(** Every path the scanner has marked to skip is a directory below the
    root that is classified ignored. *)
Definition skip_sound `{Matcher} (gitignore_specs : gmap Path PathSpec)
    (root : Path) (st : scan_state) : Prop :=
  ∀ q, q ∈ skip_directories st →
    ∃ rq, q = root ++ rq ∧ dir_verdict gitignore_specs root rq = true.

(** [q] lies strictly below [p]. *)
Definition descendant_of (q p : Path) : Prop := ∃ rest, rest ≠ [] ∧ q = p ++ rest.

(** The same tree listed in another order: at every directory the
    entries are permuted. *)
Inductive sibling_perm : node → node → Prop :=
  | sibling_perm_file content : sibling_perm (File content) (File content)
  | sibling_perm_dir es es' : entries_perm es es' → sibling_perm (Dir es) (Dir es')
with entries_perm : list (string * node) → list (string * node) → Prop :=
  | entries_perm_nil : entries_perm [] []
  | entries_perm_skip x n n' es es' :
      sibling_perm n n' → entries_perm es es' →
      entries_perm ((x, n) :: es) ((x, n') :: es')
  | entries_perm_swap e1 e2 es es' :
      entries_perm es es' → entries_perm (e1 :: e2 :: es) (e2 :: e1 :: es')
  | entries_perm_trans es1 es2 es3 :
      entries_perm es1 es2 → entries_perm es2 es3 → entries_perm es1 es3.

Scheme sibling_perm_mut := Minimality for sibling_perm Sort Prop
  with entries_perm_mut := Minimality for entries_perm Sort Prop.
Combined Scheme sibling_entries_perm_ind from sibling_perm_mut, entries_perm_mut.


(* ===================================================================== *)
(** ** Reading a trace *)
(* ===================================================================== *)

(** The paths handed to [Path.unlink] and to [shutil.rmtree], in order. *)
Definition unlink_calls (tr : list event) : list Path :=
  omap (λ e, match e with EUnlink p _ => Some p | _ => None end) tr.

Definition rmtree_calls (tr : list event) : list Path :=
  omap (λ e, match e with ERmtree p _ => Some p | _ => None end) tr.

(** Removals that succeeded, removals that raised. *)
Definition is_unlinked (e : event) : bool :=
  match e with EUnlink _ None => true | _ => false end.

Definition is_rmtreed (e : event) : bool :=
  match e with ERmtree _ None => true | _ => false end.


Definition is_removal (e : event) : bool :=
  match e with
  | EUnlink _ _ | ERmtree _ _ => true
  | _ => false
  end.

Definition count_events (f : event → bool) (tr : list event) : nat :=
  length (filter f tr).


(** The events of one pass of a removal loop over [items], the [i]-th
    removal ending as [errs !! i] says: the call, then the line printed. *)
Fixpoint attempt_events (call : Path → option string → event)
    (done_line : Path → string) (error_line : Path → string → string)
    (items : list Path) (errs : list (option string)) : list event :=
  match items, errs with
  | p :: items', err :: errs' =>
      call p err ::
      match err with
      | None => EStdout (done_line p)
      | Some error => EStderr (error_line p error)
      end ::
      attempt_events call done_line error_line items' errs'
  | _, _ => []
  end.

(** The lines of [delete_items] for an item at [root ++ rel]. *)
Definition file_done_line (root p : Path) : string :=
  "Deleted file: " +:+ str (drop (length root) p).
Definition file_error_line (root p : Path) (error : string) : string :=
  "Error deleting " +:+ str (drop (length root) p) +:+ ": " +:+ error.
Definition dir_done_line (root p : Path) : string :=
  "Deleted directory: " +:+ str (drop (length root) p) +:+ "/".
Definition dir_error_line (root p : Path) (error : string) : string :=
  "Error deleting " +:+ str (drop (length root) p) +:+ "/: " +:+ error.


(** [w'] is [w] after some more events, none of them a removal call,
    with the filesystem as it was. *)
Definition quiet_step (w w' : world) : Prop :=
  fs w' = fs w ∧ ∃ T, trace w' = trace w ++ T ∧ count_events is_removal T = 0.

(** Running [c] from [w] ends in a world and a result that satisfy
    [post]. *)
Definition wp {A} (c : M A) (post : world → result A → Prop) (w : world) : Prop :=
  post (c w).1 (c w).2.

(** A command that only prints: it returns, having added events that
    are no removal calls and touched neither filesystem nor input. *)
Definition prints_only (c : M unit) : Prop :=
  ∀ (post : world → result unit → Prop) w,
    (∀ w', quiet_step w w' → stdin w' = stdin w → post w' (Ok tt)) →
    wp c post w.

(** [p] is [root] or lies below it. *)
Definition below (root p : Path) : Prop := ∃ rel, p = root ++ rel.

(** A line of standard input that [confirm_deletion] accepts. *)
Definition is_answer `{Platform} (line : string) : bool :=
  let response := lower (strip line) in
  bool_decide (response ∈ ["yes"; "y"]) || bool_decide (response ∈ ["no"; "n"]).


(* ===================================================================== *)
(** ** Sample data *)
(* ===================================================================== *)

(** A matcher for the examples: a pattern matches the path equal to it,
    and the line ["!"] is no pattern. *)
#[global] Instance exact_matcher : Matcher := {|
  PathSpec := list string;
  from_lines := λ lines, if bool_decide ("!" ∈ lines) then None else Some lines;
  match_file := λ spec s, bool_decide (s ∈ spec);
|}.

(** A command-line parser for the examples: it knows [-d DIR], then
    one of [-y] and [-n], and [--version]; anything else is a usage
    error. *)
Definition demo_usage_error : list (stream * string) :=
  [(Stderr, "usage: gi_cleaner [-h] [-d DIRECTORY] [-n] [-y] [-v]");
   (Stderr, "gi_cleaner: error: unrecognized arguments")].

Definition demo_argparse (argv : list string) : parse_result :=
  match argv with
  | ["-d"; d] => Parsed {| directory := d; dry_run := false; yes := false |}
  | ["-d"; d; flag] =>
      if decide (flag = "-y")
      then Parsed {| directory := d; dry_run := false; yes := true |}
      else if decide (flag = "-n")
      then Parsed {| directory := d; dry_run := true; yes := false |}
      else Exits 2 demo_usage_error
  | ["--version"] => Exits 0 [(Stdout, "gi_cleaner 0.1.0")]
  | _ => Exits 2 demo_usage_error
  end.

(** A platform whose removals succeed and leave the tree as it is. *)
Definition lenient_platform : Platform := {|
  unlink := λ _ fs, (fs, None);
  rmtree := λ _ fs, (fs, None);
  resolve := λ s, ["/"; s];
  strip := ascii_strip;
  lower := ascii_lower;
  argparse := demo_argparse;
|}.

(** A platform on which no file can be unlinked. *)
Definition readonly_platform : Platform := {|
  unlink := λ _ fs, (fs, Some "Permission denied");
  rmtree := λ _ fs, (fs, None);
  resolve := λ s, ["/"; s];
  strip := ascii_strip;
  lower := ascii_lower;
  argparse := demo_argparse;
|}.

Definition demo_root : Path := ["/"; "proj"].

Definition demo_tree : node :=
  Dir [
    (".gitignore",
     File (Text ["build/"; "app.log"; "tmp.log"; "src/gen.c"]));
    ("build", Dir [("out.o", File (Text []));
                   ("deep", Dir [("x", File (Text []))])]);
    ("app.log", File (Text []));
    ("tmp.log", File (Text []));
    ("app.txt", File (Text []));
    ("src", Dir [("gen.c", File (Text [])); ("main.c", File (Text []))]);
    (".git", Dir [(".gitignore", File (Text ["config"]));
                  ("config", File (Text []))])].

(** [demo_tree] with the entries of its root and of [src] listed in
    another order. *)
Definition demo_tree_reordered : node :=
  Dir [
    ("build", Dir [("out.o", File (Text []));
                   ("deep", Dir [("x", File (Text []))])]);
    (".gitignore",
     File (Text ["build/"; "app.log"; "tmp.log"; "src/gen.c"]));
    ("tmp.log", File (Text []));
    ("app.log", File (Text []));
    ("app.txt", File (Text []));
    ("src", Dir [("main.c", File (Text [])); ("gen.c", File (Text []))]);
    (".git", Dir [(".gitignore", File (Text ["config"]));
                  ("config", File (Text []))])].

Definition demo_fs : FS := Dir [("proj", demo_tree)].

Definition demo_fs_reordered : FS := Dir [("proj", demo_tree_reordered)].



(** The command lines [gi_cleaner -d proj] and [gi_cleaner -d proj -y],
    and what they parse to. *)
Definition demo_argv : list string := ["-d"; "proj"].



Definition demo_args_yes : Args :=
  {| directory := "proj"; dry_run := false; yes := true |}.

Definition demo_specs : gmap Path (@PathSpec exact_matcher) :=
  {[ demo_root := ["build/"; "app.log"; "tmp.log"; "src/gen.c"] ]}.

(* ===================================================================== *)
(** ** Notions for the further properties *)
(* ===================================================================== *)

(** The scanner gets from the directory at [rel] to the entry at
    [rel ++ q]: every directory strictly between the two is classified
    not ignored and is not named [.git]. *)
Definition reached `{Matcher} (gitignore_specs : gmap Path PathSpec)
    (root rel q : Path) : Prop :=
  ∀ k, 0 < k → k < length q →
    dir_verdict gitignore_specs root (rel ++ take k q) = false ∧
    last (take k q) ≠ Some ".git".

(** What reading the entry [c] as text gives, and what loading it as a
    rule file gives. *)
Definition read_node (c : node) : result (list string) :=
  match c with
  | File content => read_text content
  | Dir _ => Raise (OSError "Is a directory")
  end.

Definition load_node `{Matcher} (c : node) : result PathSpec :=
  lines ← read_node c;
  match from_lines lines with
  | Some spec => mret spec
  | None => Raise GitWildMatchPatternError
  end.

(** The rule scope the directory at [q] in the tree [n] gives rise to:
    the matcher of its [.gitignore], when it has one that is a file. *)
Definition rule_file_in `{Matcher} (n : node) (q : Path) : option PathSpec :=
  match lookup_node n q with
  | Some (Dir es) =>
      match entry_named ".gitignore" es with
      | Some c =>
          match load_node c with
          | Ok spec => Some spec
          | Raise _ => None
          end
      | None => None
      end
  | _ => None
  end.

(** The directory at [q] in the tree [n] has an entry [.gitignore] that
    cannot be loaded as a rule file, [e] being raised: the entry is a
    directory, a file that cannot be opened or decoded, or a text with
    a line that is no pattern. *)
Definition unreadable_rules_at `{Matcher} (n : node) (q : Path) (e : exn)
    : Prop :=
  ∃ es c, lookup_node n q = Some (Dir es) ∧
    entry_named ".gitignore" es = Some c ∧ load_node c = Raise e.

Definition has_unreadable_rules `{Matcher} (n : node) : Prop :=
  ∃ q e, unreadable_rules_at n q e.


(** The two lines of [confirm_deletion]. *)
Definition confirm_prompt : string :=
  "Do you want to delete these items? (yes/no): ".
Definition confirm_reminder : string := "Please enter 'yes' or 'no'.".

(** What [confirm_deletion] prints while it reads the lines [junk] that
    are no answer: the prompt and the reminder, once for each. *)
Definition reprompts (junk : list string) : list event :=
  junk ≫= λ _, [EStdout confirm_prompt; EStdout confirm_reminder].


(* ===================================================================== *)
(** ** The classifier against its specification *)
(* ===================================================================== *)

Section ClassifierFacts.
Context `{Matcher}.
Implicit Types (specs : gmap Path PathSpec) (root rel cur : Path).

Lemma relative_to_app base rel : relative_to (base ++ rel) base = Ok rel.
Proof.
  induction base as [|b base IH]; [done|].
  cbn [relative_to app]. by rewrite decide_True.
Qed.

Lemma file_scope_matches_app specs cur rest :
  file_scope_matches (cur ++ rest) cur specs = Ok (file_scope_hit specs cur rest).
Proof.
  unfold file_scope_matches, file_scope_hit.
  destruct (specs !! cur); [|done].
  by rewrite relative_to_app.
Qed.

Lemma dir_scope_matches_app specs cur rest :
  dir_scope_matches (cur ++ rest) cur specs = Ok (dir_scope_hit specs cur rest).
Proof.
  unfold dir_scope_matches, dir_scope_hit.
  destruct (specs !! cur); [|done].
  by rewrite relative_to_app.
Qed.

Lemma existsb_ext {A} (f g : A → bool) (l : list A) :
  (∀ x, f x = g x) → existsb f l = existsb g l.
Proof.
  intros Hfg. induction l as [|a l IH]; simpl; [done|]. by rewrite Hfg, IH.
Qed.

Lemma existsb_seq_S (f : nat → bool) n :
  existsb f (seq 0 (S n)) = f 0 || existsb (λ k, f (S k)) (seq 0 n).
Proof.
  change (seq 0 (S n)) with (0 :: seq 1 n).
  rewrite <- seq_shift. simpl. f_equal.
  induction (seq 0 n) as [|a l IH]; simpl; [done|]. by rewrite IH.
Qed.

(** The loop of [is_file_ignored] over the directory parts [parts]
    still to go, standing at [cur]. *)
Lemma is_file_ignored_loop_spec specs fname parts cur :
  is_file_ignored_loop (cur ++ parts ++ [fname]) specs parts cur =
  Ok (if existsb (λ k, file_scope_hit specs (cur ++ take k parts)
                         (drop k parts ++ [fname])) (seq 0 (length parts))
      then Returned true else Fallthrough (cur ++ parts)).
Proof.
  revert cur. induction parts as [|part parts IH]; intros cur.
  - simpl. by rewrite app_nil_r.
  - cbn [is_file_ignored_loop length].
    rewrite file_scope_matches_app. cbn [mbind result_bind].
    rewrite existsb_seq_S. cbn [take drop].
    rewrite app_nil_r.
    destruct (file_scope_hit specs cur _) eqn:Hhit; [done|].
    cbn [orb]. unfold joinpath.
    specialize (IH (cur ++ [part])).
    replace (cur ++ (part :: parts) ++ [fname])
      with ((cur ++ [part]) ++ parts ++ [fname]) by (by rewrite <- !app_assoc).
    rewrite IH.
    replace ((cur ++ [part]) ++ parts) with (cur ++ part :: parts)
      by (by rewrite <- app_assoc).
    erewrite existsb_ext; [done|].
    intros k. simpl. by rewrite <- app_assoc.
Qed.

Lemma is_directory_ignored_loop_spec specs parts cur :
  is_directory_ignored_loop (cur ++ parts) specs parts cur =
  Ok (existsb (λ k, dir_scope_hit specs (cur ++ take k parts) (drop k parts))
        (seq 0 (length parts))).
Proof.
  revert cur. induction parts as [|part parts IH]; intros cur; [done|].
  cbn [is_directory_ignored_loop length].
  rewrite dir_scope_matches_app. cbn [mbind result_bind].
  rewrite existsb_seq_S. cbn [take drop]. rewrite app_nil_r.
  destruct (dir_scope_hit specs cur _) eqn:Hhit; [done|].
  cbn [orb]. unfold joinpath.
  specialize (IH (cur ++ [part])).
  replace (cur ++ part :: parts) with ((cur ++ [part]) ++ parts)
    by (by rewrite <- app_assoc).
  rewrite IH.
  erewrite existsb_ext; [done|].
  intros k. simpl. by rewrite <- app_assoc.
Qed.

Lemma is_directory_ignored_verdict specs root rel :
  is_directory_ignored (root ++ rel) root specs = Ok (dir_verdict specs root rel).
Proof.
  unfold is_directory_ignored. rewrite relative_to_app. cbn [mbind result_bind].
  apply is_directory_ignored_loop_spec.
Qed.

Lemma parent_snoc (p : Path) (x : string) :
  x ≠ "/" → parent (p ++ [x]) = p.
Proof.
  intros Hx. unfold parent.
  destruct p as [|a p]; [cbn [app]; by rewrite decide_False|].
  destruct p as [|b p]; [done|].
  change ((a :: b :: p) ++ [x]) with (a :: b :: (p ++ [x])). cbv beta iota.
  change (a :: b :: (p ++ [x])) with ((a :: b :: p) ++ [x]).
  by rewrite removelast_last.
Qed.

Lemma name_snoc (p : Path) (x : string) : name (p ++ [x]) = x.
Proof. unfold name. by rewrite last_snoc. Qed.

Lemma str_singleton (x : string) : x ≠ "/" → str [x] = x.
Proof. intros Hx. unfold str. by rewrite decide_False. Qed.

End ClassifierFacts.

Section ClassifierTheorems.
Context `{Matcher}.
Implicit Types (specs : gmap Path PathSpec) (root rel : Path).

Lemma existsb_seq_snoc (f : nat → bool) n :
  existsb f (seq 0 (S n)) = existsb f (seq 0 n) || f n.
Proof.
  rewrite seq_S, existsb_app. simpl. by rewrite orb_false_r.
Qed.

Lemma existsb_seq_true (f : nat → bool) n :
  existsb f (seq 0 n) = true ↔ ∃ k, k < n ∧ f k = true.
Proof.
  rewrite existsb_exists. split.
  - intros (k & Hk & Hf). apply in_seq in Hk. exists k. split; [lia|done].
  - intros (k & Hk & Hf). exists k. split; [|done]. apply in_seq. lia.
Qed.

(** A boolean predicate that holds somewhere holds at a least index. *)
Lemma least_true (f : nat → bool) k :
  f k = true → ∃ k0, k0 ≤ k ∧ f k0 = true ∧ ∀ j, j < k0 → f j = false.
Proof.
  induction k as [k IH] using lt_wf_ind. intros Hk.
  destruct (existsb f (seq 0 k)) eqn:Hbefore.
  - apply existsb_seq_true in Hbefore as (j & Hj & Hfj).
    destruct (IH j Hj Hfj) as (k0 & Hk0 & Hf0 & Hleast).
    exists k0. split; [lia|done].
  - exists k. split; [lia|]. split; [done|].
    intros j Hj. destruct (f j) eqn:Hfj; [|done].
    assert (existsb f (seq 0 k) = true) as Hyes
      by (apply existsb_seq_true; eauto).
    congruence.
Qed.

Lemma is_file_ignored_verdict specs root dirs fname :
  fname ≠ "/" →
  is_file_ignored (root ++ dirs ++ [fname]) root specs =
  Ok (file_verdict specs root dirs fname).
Proof.
  intros Hname. unfold is_file_ignored, file_verdict.
  rewrite relative_to_app. cbn [mbind result_bind].
  rewrite parent_snoc by done.
  rewrite is_file_ignored_loop_spec. cbn [mbind result_bind].
  rewrite existsb_seq_snoc.
  destruct (existsb _ (seq 0 (length dirs))) eqn:Hloop; [done|].
  cbn [orb]. rewrite firstn_all, skipn_all. cbn [app].
  rewrite (app_assoc root dirs [fname]).
  rewrite file_scope_matches_app. cbn [mbind result_bind].
  destruct (file_scope_hit specs (root ++ dirs) [fname]) eqn:Hlast; [done|].
  rewrite parent_snoc, name_snoc by done.
  unfold file_scope_hit in Hlast.
  destruct (specs !! (root ++ dirs)) as [spec|]; [|done].
  rewrite str_singleton in Hlast by done. by rewrite Hlast.
Qed.

(** C1.  For a file below the root, at [root ++ dirs ++ [fname]],
    [is_file_ignored] returns, and it returns [true] exactly when some
    directory on the chain root, ..., parent of the file (the prefixes
    [root ++ take k dirs], [k ≤ length dirs]) carries a rule scope whose
    matcher matches the file's path relative to that directory; the
    scope deciding is the first such one on the way from the root down,
    and with no matching scope the file is not ignored. *)
Theorem is_file_ignored_first_match specs root dirs fname :
  fname ≠ "/" →
  ∃ b, is_file_ignored (root ++ dirs ++ [fname]) root specs = Ok b ∧
    (b = true ↔
     ∃ k, k ≤ length dirs ∧
       file_scope_hit specs (root ++ take k dirs) (drop k dirs ++ [fname]) = true ∧
       ∀ j, j < k →
         file_scope_hit specs (root ++ take j dirs) (drop j dirs ++ [fname]) = false).
Proof.
  intros Hname. exists (file_verdict specs root dirs fname).
  split; [by apply is_file_ignored_verdict|].
  unfold file_verdict. rewrite existsb_seq_true. split.
  - intros (k & Hk & Hhit).
    destruct (least_true
      (λ k, file_scope_hit specs (root ++ take k dirs) (drop k dirs ++ [fname]))
      k Hhit) as (k0 & Hk0 & Hhit0 & Hleast).
    exists k0. split; [lia|done].
  - intros (k & Hk & Hhit & _). exists k. split; [lia|done].
Qed.

Lemma existsb_ext_in {A} (f g : A → bool) (l : list A) :
  (∀ x, In x l → f x = g x) → existsb f l = existsb g l.
Proof.
  induction l as [|a l IH]; simpl; intros Hfg; [done|].
  rewrite Hfg by auto. rewrite IH by auto. done.
Qed.

Lemma dir_verdict_agree specs1 specs2 root rel :
  (∀ k, k < length rel →
     specs1 !! (root ++ take k rel) = specs2 !! (root ++ take k rel)) →
  dir_verdict specs1 root rel = dir_verdict specs2 root rel.
Proof.
  intros Hagree. unfold dir_verdict. apply existsb_ext_in.
  intros k Hk. apply in_seq in Hk. unfold dir_scope_hit.
  rewrite Hagree by lia. done.
Qed.

Lemma strict_prefix_ne root rel k :
  k < length rel → root ++ take k rel ≠ root ++ rel.
Proof.
  intros Hk Heq. apply (f_equal length) in Heq.
  rewrite !length_app, length_take in Heq. lia.
Qed.

(** C10.  For a directory [D = root ++ rel], [is_directory_ignored]
    reads the rule map only at the strict ancestors of [D] (the
    prefixes [root ++ take k rel] with [k < length rel]): two rule maps
    that agree there give the same answer.  Hence a rule scope keyed at
    [D] itself never changes the verdict on [D], and the root is never
    classified ignored. *)
Theorem is_directory_ignored_strict_ancestors specs root rel :
  (∀ specs',
     (∀ k, k < length rel →
        specs' !! (root ++ take k rel) = specs !! (root ++ take k rel)) →
     is_directory_ignored (root ++ rel) root specs' =
     is_directory_ignored (root ++ rel) root specs) ∧
  (∀ spec,
     is_directory_ignored (root ++ rel) root (<[root ++ rel := spec]> specs) =
     is_directory_ignored (root ++ rel) root specs) ∧
  is_directory_ignored (root ++ rel) root (delete (root ++ rel) specs) =
    is_directory_ignored (root ++ rel) root specs ∧
  is_directory_ignored root root specs = Ok false.
Proof.
  assert (∀ specs',
     (∀ k, k < length rel →
        specs' !! (root ++ take k rel) = specs !! (root ++ take k rel)) →
     is_directory_ignored (root ++ rel) root specs' =
     is_directory_ignored (root ++ rel) root specs) as Hagree.
  { intros specs' Hsame. rewrite !is_directory_ignored_verdict.
    f_equal. by apply dir_verdict_agree. }
  split; [done|]. split; [|split].
  - intros spec. apply Hagree. intros k Hk.
    apply lookup_insert_ne. intros Heq. by eapply strict_prefix_ne.
  - apply Hagree. intros k Hk.
    apply lookup_delete_ne. intros Heq. by eapply strict_prefix_ne.
  - pose proof (is_directory_ignored_verdict specs root []) as Hroot.
    by rewrite app_nil_r in Hroot.
Qed.


End ClassifierTheorems.

Lemma is_file_ignored_first_match_witness :
  "gen.c" ≠ "/" ∧
  ∃ b, is_file_ignored (demo_root ++ ["src"] ++ ["gen.c"]) demo_root demo_specs
         = Ok b ∧
    (b = true ↔
     ∃ k, k ≤ length ["src"] ∧
       file_scope_hit demo_specs (demo_root ++ take k ["src"])
         (drop k ["src"] ++ ["gen.c"]) = true ∧
       ∀ j, j < k →
         file_scope_hit demo_specs (demo_root ++ take j ["src"])
           (drop j ["src"] ++ ["gen.c"]) = false).
Proof.
  split; [discriminate|].
  apply (is_file_ignored_first_match demo_specs demo_root ["src"] "gen.c").
  discriminate.
Defined.

Lemma is_directory_ignored_strict_ancestors_witness :
  is_directory_ignored (demo_root ++ ["build"]) demo_root
    (<[demo_root ++ ["build"] := ["build"]]> demo_specs) =
  is_directory_ignored (demo_root ++ ["build"]) demo_root demo_specs.
Proof.
  apply (proj1 (is_directory_ignored_strict_ancestors
                  demo_specs demo_root ["build"])).
  intros [|k] Hk; [reflexivity|cbn in Hk; lia].
Defined.

(* ===================================================================== *)
(** ** The scanner against its specification *)
(* ===================================================================== *)

Lemma node_ind (P : node → Prop) :
  (∀ content, P (File content)) →
  (∀ es, Forall (λ e, P e.2) es → P (Dir es)) →
  ∀ n, P n.
Proof.
  intros Hfile Hdir. fix IH 1. intros [content|es]; [apply Hfile|].
  apply Hdir. induction es as [|[x c] es IHes]; constructor; [apply IH|exact IHes].
Qed.

Section ScannerFacts.
Context `{Matcher}.
Variable root : Path.
Variable specs : gmap Path PathSpec.

Lemma parent_prefix (p : Path) : ∃ rest, p = parent p ++ rest.
Proof.
  unfold parent. destruct p as [|a [|b p]].
  - by exists [].
  - destruct (decide (a = "/")); [by exists []|by exists [a]].
  - exists [List.last (a :: b :: p) a]. by apply app_removelast_last.
Qed.

Lemma is_file_ignored_loop_total file_path parts cur rest :
  file_path = cur ++ parts ++ rest →
  is_file_ignored_loop file_path specs parts cur = Ok (Returned true) ∨
  is_file_ignored_loop file_path specs parts cur = Ok (Fallthrough (cur ++ parts)).
Proof.
  revert cur. induction parts as [|part parts IH]; intros cur ->.
  - right. simpl. by rewrite app_nil_r.
  - cbn [is_file_ignored_loop].
    rewrite file_scope_matches_app. cbn [mbind result_bind].
    destruct (file_scope_hit _ _ _); [by left|].
    unfold joinpath.
    replace (cur ++ part :: parts) with ((cur ++ [part]) ++ parts)
      by (by rewrite <- app_assoc).
    apply IH. by rewrite <- !app_assoc.
Qed.

Lemma is_file_ignored_total rel :
  is_file_ignored (root ++ rel) root specs = Ok (file_ignored specs root rel).
Proof.
  unfold file_ignored.
  enough (∃ b, is_file_ignored (root ++ rel) root specs = Ok b) as [b ->]; [done|].
  unfold is_file_ignored. rewrite relative_to_app. cbn [mbind result_bind].
  destruct (parent_prefix rel) as [rest Hrest].
  destruct (is_file_ignored_loop_total (root ++ rel) (parent rel) root rest)
    as [-> | ->]; [by rewrite Hrest at 1| by eexists |].
  cbn [mbind result_bind].
  replace (file_scope_matches (root ++ rel) (root ++ parent rel) specs)
    with (file_scope_matches ((root ++ parent rel) ++ rest) (root ++ parent rel) specs)
    by (by rewrite <- app_assoc, <- Hrest).
  rewrite file_scope_matches_app. cbn [mbind result_bind].
  destruct (file_scope_hit _ _ _); [by eexists|].
  destruct (specs !! parent (root ++ rel)); [|by eexists].
  destruct (match_file _ _); by eexists.
Qed.

Lemma joinpath_child rel x : joinpath (root ++ rel) x = child_path root rel x.
Proof. unfold joinpath, child_path. by rewrite <- app_assoc. Qed.

Lemma is_directory_ignored_child rel x :
  is_directory_ignored (child_path root rel x) root specs =
  Ok (dir_verdict specs root (rel ++ [x])).
Proof. apply is_directory_ignored_verdict. Qed.

Lemma is_file_ignored_child rel x :
  is_file_ignored (child_path root rel x) root specs =
  Ok (file_ignored specs root (rel ++ [x])).
Proof. apply is_file_ignored_total. Qed.

Lemma filter_all {A} (P : A → Prop) `{∀ x, Decision (P x)} (l : list A) :
  (∀ x, x ∈ l → P x) → filter P l = l.
Proof.
  induction l as [|a l IH]; intros HP; [done|].
  rewrite filter_cons_True by (apply HP; left).
  f_equal. apply IH. intros x Hx. apply HP. by right.
Qed.

(** [list.remove] on a list without repetitions. *)
Lemma list_remove_NoDup (x : string) (l : list string) :
  NoDup l → x ∈ l → list_remove x l = Ok (filter (λ y, y ≠ x) l).
Proof.
  induction 1 as [|y l Hy Hl IH]; intros Hx; [by apply elem_of_nil in Hx|].
  cbn [list_remove]. destruct (decide (y = x)) as [->|Hne].
  - rewrite filter_cons_False by (intros Hn; by apply Hn).
    rewrite filter_all; [done|]. intros z Hz ->. done.
  - apply elem_of_cons in Hx as [->|Hx]; [done|].
    rewrite IH by done. cbn [mbind result_bind mret result_ret].
    by rewrite filter_cons_True.
Qed.

Lemma remove_all_spec (rs l : list string) :
  NoDup l → NoDup rs → (∀ y, y ∈ rs → y ∈ l) →
  ∃ l', remove_all rs l = Ok l' ∧ ∀ y, y ∈ l' ↔ y ∈ l ∧ y ∉ rs.
Proof.
  revert l. induction rs as [|r rs IH]; intros l Hl Hrs Hsub.
  - exists l. split; [done|]. intros y. split; [|tauto].
    intros Hy. split; [done|]. apply not_elem_of_nil.
  - apply NoDup_cons in Hrs as [Hr Hrs].
    cbn [remove_all]. rewrite list_remove_NoDup by (auto; apply Hsub; left).
    cbn [mbind result_bind].
    destruct (IH (filter (λ y, y ≠ r) l)) as (l' & -> & Hl').
    + by apply NoDup_filter.
    + done.
    + intros y Hy. apply list_elem_of_filter. split.
      * intros ->. done.
      * apply Hsub. by right.
    + exists l'. split; [done|]. intros y. rewrite Hl', list_elem_of_filter.
      rewrite elem_of_cons. tauto.
Qed.

Lemma check_directories_spec rel ds st acc :
  ∃ skip',
    check_directories root specs (root ++ rel) ds st acc =
      Ok ({| ignored_files := ignored_files st;
             ignored_directories :=
               ignored_directories st ++
               (child_path root rel <$>
                  filter (λ x, dir_verdict specs root (rel ++ [x])) ds);
             skip_directories := skip' |},
          acc ++ filter (λ x, dir_verdict specs root (rel ++ [x])) ds) ∧
    ∀ q, q ∈ skip' ↔
         q ∈ skip_directories st ∨
         q ∈ child_path root rel <$>
               filter (λ x, dir_verdict specs root (rel ++ [x])) ds.
Proof.
  revert st acc. induction ds as [|x ds IH]; intros st acc.
  - exists (skip_directories st). cbn. rewrite !app_nil_r. split.
    + by destruct st.
    + intros q. rewrite elem_of_nil. tauto.
  - cbn [check_directories]. rewrite joinpath_child, is_directory_ignored_child.
    cbn [mbind result_bind].
    destruct (dir_verdict specs root (rel ++ [x])) eqn:Hv.
    + rewrite filter_cons_True by (rewrite Hv; exact I).
      edestruct IH as (skip' & -> & Hskip). exists skip'.
      cbn in *. rewrite <- !app_assoc. split; [done|].
      intros q. rewrite Hskip, elem_of_union, elem_of_singleton, elem_of_cons.
      tauto.
    + rewrite filter_cons_False by (rewrite Hv; exact id).
      apply IH.
Qed.

Lemma check_files_spec rel files st :
  check_files root specs (root ++ rel) files st =
  Ok {| ignored_files :=
          ignored_files st ++
          (child_path root rel <$>
             filter (λ x, file_ignored specs root (rel ++ [x])) files);
        ignored_directories := ignored_directories st;
        skip_directories := skip_directories st |}.
Proof.
  revert st. induction files as [|x files IH]; intros st.
  - cbn. rewrite app_nil_r. by destruct st.
  - cbn [check_files]. rewrite joinpath_child, is_file_ignored_child.
    cbn [mbind result_bind].
    destruct (file_ignored specs root (rel ++ [x])) eqn:Hv.
    + rewrite filter_cons_True by (rewrite Hv; exact I).
      rewrite IH. cbn. by rewrite <- !app_assoc.
    + rewrite filter_cons_False by (rewrite Hv; exact id).
      apply IH.
Qed.

Lemma scan_body_spec rel directories files st :
  NoDup directories →
  root ++ rel ∉ skip_directories st →
  ∃ st' kept,
    scan_body root specs (root ++ rel) directories files st = Ok (st', kept) ∧
    ignored_files st' =
      ignored_files st ++
      (child_path root rel <$>
         filter (λ x, file_ignored specs root (rel ++ [x])) files) ∧
    ignored_directories st' =
      ignored_directories st ++
      (child_path root rel <$>
         filter (λ x, dir_verdict specs root (rel ++ [x]))
           (filter (λ x, x ≠ ".git") directories)) ∧
    (∀ q, q ∈ skip_directories st' ↔
          q ∈ skip_directories st ∨
          q ∈ child_path root rel <$>
                filter (λ x, dir_verdict specs root (rel ++ [x]))
                  (filter (λ x, x ≠ ".git") directories)) ∧
    (∀ x, x ∈ kept ↔
          x ∈ directories ∧ x ≠ ".git" ∧
          dir_verdict specs root (rel ++ [x]) = false).
Proof.
  intros Hnodup Hskip. unfold scan_body.
  assert ((if bool_decide (".git" ∈ directories)
           then list_remove ".git" directories
           else mret directories) =
          Ok (filter (λ x, x ≠ ".git") directories)) as ->.
  { case_bool_decide as Hgit.
    - by apply list_remove_NoDup.
    - rewrite filter_all; [done|]. intros x Hx ->. done. }
  cbn [mbind result_bind]. rewrite bool_decide_eq_false_2 by done.
  set (d1 := filter (λ x, x ≠ ".git") directories).
  destruct (check_directories_spec rel d1 st []) as (skip' & -> & Hskip').
  cbn [mbind result_bind fst snd app].
  destruct (remove_all_spec
              (filter (λ x, dir_verdict specs root (rel ++ [x])) d1) d1)
    as (kept & -> & Hkept).
  { by apply NoDup_filter. }
  { by apply NoDup_filter, NoDup_filter. }
  { intros y Hy. by apply list_elem_of_filter in Hy as [_ Hy]. }
  cbn [mbind result_bind]. rewrite check_files_spec.
  cbn [mbind result_bind mret result_ret].
  eexists _, kept. split; [done|]. cbn.
  split; [done|]. split; [done|]. split; [done|].
  intros x. rewrite Hkept. unfold d1. rewrite !list_elem_of_filter.
  destruct (dir_verdict specs root (rel ++ [x])); cbn; intuition congruence.
Qed.

Lemma walk_Dir {S} (body : Path → list string → list string → S →
                               result (S * list string)) top es st :
  walk body top (Dir es) st =
  r ← body top (dirnames es) (filenames es) st;
  walk_entries body top r.2 es r.1.
Proof.
  cbn [walk]. destruct (body top (dirnames es) (filenames es) st)
    as [[st1 kept]|e]; cbn [mbind result_bind fst snd]; [|done].
  revert st1. induction es as [|[x c] es IH]; intros st1; [done|].
  cbn [walk_entries]. destruct (is_dir_node c && bool_decide (x ∈ kept)).
  - destruct (walk body (joinpath top x) c st1); cbn [mbind result_bind]; [|done].
    apply IH.
  - cbn [mbind result_bind mret result_ret]. apply IH.
Qed.

Lemma NoDup_fst_filter {A B} (P : A * B → Prop) `{∀ e, Decision (P e)}
    (l : list (A * B)) :
  NoDup l.*1 → NoDup (filter P l).*1.
Proof.
  induction l as [|e l IH]; [done|]. rewrite fmap_cons. intros Hnd.
  apply NoDup_cons in Hnd as [Hhd Htl].
  destruct (decide (P e)).
  - rewrite filter_cons_True by done. rewrite fmap_cons.
    apply NoDup_cons. split; [|auto].
    intros Hin. apply Hhd. apply list_elem_of_fmap in Hin as (e' & -> & Hin).
    apply list_elem_of_filter in Hin as [_ Hin].
    apply list_elem_of_fmap. eauto.
  - rewrite filter_cons_False by done. auto.
Qed.

Lemma wf_node_Dir es :
  wf_node (Dir es) = true →
  NoDup es.*1 ∧ Forall (λ e, wf_node e.2 = true) es.
Proof.
  cbn [wf_node]. intros Hwf. apply andb_true_iff in Hwf as [Hnd Hall].
  split; [by apply bool_decide_eq_true in Hnd|].
  apply Forall_forall. intros e He. rewrite forallb_forall in Hall.
  apply Hall. by apply list_elem_of_In.
Qed.

Lemma elem_of_dirnames x es :
  x ∈ dirnames es ↔ ∃ c, (x, c) ∈ es ∧ is_dir_node c = true.
Proof.
  unfold dirnames. rewrite list_elem_of_fmap. split.
  - intros ([y c] & -> & Hin). apply list_elem_of_filter in Hin as [Hd Hin].
    exists c. split; [done|]. by apply Is_true_true.
  - intros (c & Hin & Hd). exists (x, c). split; [done|].
    apply list_elem_of_filter. split; [|done]. by apply Is_true_true.
Qed.

(** The descent through a listing, given what each child's walk does. *)
Lemma walk_entries_scan_spec rel kept l :
  Forall (λ e, ∀ rel' st,
            wf_node e.2 = true →
            skip_sound specs root st →
            dir_verdict specs root rel' = false →
            ∃ st', walk (scan_body root specs) (root ++ rel') e.2 st = Ok st' ∧
              ignored_files st' = ignored_files st ++ scan_files specs root rel' e.2 ∧
              ignored_directories st' =
                ignored_directories st ++ scan_dirs specs root rel' e.2 ∧
              skip_sound specs root st') l →
  Forall (λ e, wf_node e.2 = true) l →
  Forall (λ e, is_dir_node e.2 && bool_decide (e.1 ∈ kept) =
               descends specs root rel e) l →
  ∀ st, skip_sound specs root st →
  ∃ st', walk_entries (scan_body root specs) (root ++ rel) kept l st = Ok st' ∧
    ignored_files st' =
      ignored_files st ++
      concat (map (λ e, if descends specs root rel e
                        then scan_files specs root (rel ++ [e.1]) e.2
                        else []) l) ∧
    ignored_directories st' =
      ignored_directories st ++
      concat (map (λ e, if descends specs root rel e
                        then scan_dirs specs root (rel ++ [e.1]) e.2
                        else []) l) ∧
    skip_sound specs root st'.
Proof.
  induction l as [|[x c] l IHl]; intros HIH Hwf Hkept st Hst.
  - exists st. cbn. by rewrite !app_nil_r.
  - apply Forall_cons in HIH as [HIHc HIH].
    apply Forall_cons in Hwf as [Hwfc Hwf].
    apply Forall_cons in Hkept as [Hkc Hkept].
    cbn [walk_entries map concat]. cbn [fst snd] in *.
    rewrite Hkc. destruct (descends specs root rel (x, c)) eqn:Hdesc.
    + assert (dir_verdict specs root (rel ++ [x]) = false) as Hv.
      { unfold descends in Hdesc. cbn in Hdesc.
        apply andb_true_iff in Hdesc as [_ Hdesc].
        by apply negb_true_iff in Hdesc. }
      rewrite joinpath_child. unfold child_path.
      destruct (HIHc (rel ++ [x]) st Hwfc Hst Hv)
        as (st1 & Hwalk & Hf1 & Hd1 & Hst1).
      rewrite Hwalk. cbn [mbind result_bind].
      destruct (IHl HIH Hwf Hkept st1 Hst1) as (st2 & -> & Hf2 & Hd2 & Hst2).
      exists st2. split; [done|].
      rewrite Hf2, Hd2, Hf1, Hd1, <- !app_assoc. done.
    + cbn [mbind result_bind mret result_ret].
      destruct (IHl HIH Hwf Hkept st Hst) as (st2 & -> & Hf2 & Hd2 & Hst2).
      exists st2. done.
Qed.

(** The walk of the scanner from the directory at [rel]: it returns,
    and it appends [scan_files] and [scan_dirs] to the two lists. *)
Lemma walk_scan_spec n :
  ∀ rel st,
    wf_node n = true →
    skip_sound specs root st →
    dir_verdict specs root rel = false →
    ∃ st', walk (scan_body root specs) (root ++ rel) n st = Ok st' ∧
      ignored_files st' = ignored_files st ++ scan_files specs root rel n ∧
      ignored_directories st' =
        ignored_directories st ++ scan_dirs specs root rel n ∧
      skip_sound specs root st'.
Proof.
  induction n as [content|es IH] using node_ind; intros rel st Hwf Hst Hv.
  - exists st. cbn. by rewrite !app_nil_r.
  - apply wf_node_Dir in Hwf as [Hnd Hwf].
    rewrite walk_Dir.
    destruct (scan_body_spec rel (dirnames es) (filenames es) st)
      as (st1 & kept & -> & Hf1 & Hd1 & Hs1 & Hkept).
    { by apply NoDup_fst_filter. }
    { intros Hin. destruct (Hst _ Hin) as (rq & Heq & Hrq).
      apply app_inv_head in Heq as <-. congruence. }
    cbn [mbind result_bind fst snd].
    assert (skip_sound specs root st1) as Hst1.
    { intros q Hq. apply Hs1 in Hq as [Hq|Hq]; [by apply Hst|].
      apply list_elem_of_fmap in Hq as (x & -> & Hx).
      apply list_elem_of_filter in Hx as [Hx _].
      exists (rel ++ [x]). split; [done|]. by apply Is_true_true. }
    destruct (walk_entries_scan_spec rel kept es IH Hwf) with (st := st1)
      as (st2 & -> & Hf2 & Hd2 & Hst2); [|done|].
    { apply Forall_forall. intros [x c] Hin. cbn [fst snd].
      unfold descends. cbn [fst snd].
      destruct (is_dir_node c) eqn:Hc; [|done]. cbn [andb].
      destruct (dir_verdict specs root (rel ++ [x])) eqn:Hvx.
      - rewrite andb_false_r. apply bool_decide_eq_false.
        rewrite Hkept. intuition congruence.
      - rewrite andb_true_r. apply bool_decide_ext. rewrite Hkept.
        rewrite elem_of_dirnames. split; [tauto|].
        intros Hne. split; [eauto|done]. }
    exists st2. split; [done|].
    cbn [scan_files scan_dirs]. unfold here_files, here_dirs.
    rewrite Hf2, Hd2, Hf1, Hd1, <- !app_assoc. done.
Qed.

Lemma elem_of_concat_map {A B} (f : A → list B) (l : list A) (y : B) :
  y ∈ concat (map f l) ↔ ∃ x, x ∈ l ∧ y ∈ f x.
Proof.
  rewrite list_elem_of_In, in_concat. split.
  - intros (k & Hk & Hy). apply in_map_iff in Hk as (x & <- & Hx).
    exists x. by rewrite !list_elem_of_In.
  - intros (x & Hx & Hy). exists (f x). rewrite <- !list_elem_of_In.
    split; [|done]. apply list_elem_of_In, in_map. by apply list_elem_of_In.
Qed.

(** Every path the scanner lists lies strictly below the directory it
    was found from, and every directory strictly between the two was
    classified not ignored. *)
Lemma scan_paths_shape n :
  ∀ rel p,
    p ∈ scan_files specs root rel n ∨ p ∈ scan_dirs specs root rel n →
    ∃ q, q ≠ [] ∧ p = root ++ rel ++ q ∧
      ∀ k, 0 < k → k < length q →
        dir_verdict specs root (rel ++ take k q) = false.
Proof.
  induction n as [content|es IH] using node_ind; intros rel p Hp.
  { cbn in Hp. destruct Hp as [Hp|Hp]; by apply elem_of_nil in Hp. }
  assert (∀ x, p = child_path root rel x →
            ∃ q, q ≠ [] ∧ p = root ++ rel ++ q ∧
              ∀ k, 0 < k → k < length q →
                dir_verdict specs root (rel ++ take k q) = false) as Hhere.
  { intros x ->. exists [x]. split; [done|]. split; [done|].
    intros k ? Hk. cbn in Hk. lia. }
  assert (∀ e, e ∈ es → descends specs root rel e = true →
            (p ∈ scan_files specs root (rel ++ [e.1]) e.2 ∨
             p ∈ scan_dirs specs root (rel ++ [e.1]) e.2) →
            ∃ q, q ≠ [] ∧ p = root ++ rel ++ q ∧
              ∀ k, 0 < k → k < length q →
                dir_verdict specs root (rel ++ take k q) = false) as Hsub.
  { intros [x c] He Hdesc Hin. cbn [fst snd] in *.
    rewrite Forall_forall in IH.
    destruct (IH _ He _ _ Hin) as (q & Hq & -> & Hbetween).
    exists (x :: q). split; [done|]. split; [by rewrite <- !app_assoc|].
    intros [|k] ? Hk; [lia|]. cbn [take]. cbn [length] in Hk.
    destruct k as [|k].
    - rewrite take_0. unfold descends in Hdesc. cbn [fst snd] in Hdesc.
      apply andb_true_iff in Hdesc as [_ Hdesc].
      by apply negb_true_iff in Hdesc.
    - replace (rel ++ x :: take (S k) q) with ((rel ++ [x]) ++ take (S k) q)
        by (by rewrite <- app_assoc).
      apply Hbetween; lia. }
  cbn [scan_files scan_dirs] in Hp. unfold here_files, here_dirs in Hp.
  rewrite !elem_of_app, !list_elem_of_fmap, !elem_of_concat_map in Hp.
  destruct Hp as [[(x & -> & _)|(e & He & Hin)]|[(x & -> & _)|(e & He & Hin)]].
  - by eapply Hhere.
  - destruct (descends specs root rel e) eqn:Hdesc;
      [|by apply elem_of_nil in Hin]. eapply Hsub; eauto.
  - by eapply Hhere.
  - destruct (descends specs root rel e) eqn:Hdesc;
      [|by apply elem_of_nil in Hin]. eapply Hsub; eauto.
Qed.

(** Every directory the scanner lists is classified ignored. *)
Lemma scan_dirs_ignored n :
  ∀ rel p, p ∈ scan_dirs specs root rel n →
    ∃ q, p = root ++ rel ++ q ∧ dir_verdict specs root (rel ++ q) = true.
Proof.
  induction n as [content|es IH] using node_ind; intros rel p Hp.
  { by apply elem_of_nil in Hp. }
  cbn [scan_dirs] in Hp. unfold here_dirs in Hp.
  rewrite elem_of_app, list_elem_of_fmap, elem_of_concat_map in Hp.
  destruct Hp as [(x & -> & Hx)|([x c] & He & Hin)].
  - apply list_elem_of_filter in Hx as [Hx _].
    exists [x]. split; [done|]. by apply Is_true_true.
  - destruct (descends specs root rel (x, c)); [|by apply elem_of_nil in Hin].
    rewrite Forall_forall in IH. cbn [fst snd] in Hin.
    destruct (IH _ He _ _ Hin) as (q & -> & Hq).
    exists (x :: q). rewrite <- !app_assoc in *. done.
Qed.

(** Nothing the scanner lists lies below a directory it lists. *)
Lemma scan_containment n D p :
  D ∈ scan_dirs specs root [] n →
  p ∈ scan_files specs root [] n ++ scan_dirs specs root [] n →
  ¬ descendant_of p D.
Proof.
  intros HD Hp (rest & Hrest & Hbelow).
  apply scan_dirs_ignored in HD as (qD & HDeq & HDv).
  apply elem_of_app in Hp.
  apply scan_paths_shape in Hp as (qp & _ & Hpeq & Hbetween).
  cbn [app] in *. subst D p.
  rewrite <- app_assoc in Hbelow. apply app_inv_head in Hbelow. subst qp.
  specialize (Hbetween (length qD)).
  rewrite take_app_length in Hbetween. rewrite length_app in Hbetween.
  assert (length rest ≠ 0) by (by destruct rest).
  destruct qD as [|x qD]; [done|].
  rewrite Hbetween in HDv; [done|cbn; lia|lia].
Qed.

Lemma app_swap_middle {A} (a b c d : list A) :
  (a ++ b) ++ (c ++ d) ≡ₚ (a ++ c) ++ (b ++ d).
Proof.
  rewrite <- !app_assoc. f_equiv. rewrite !app_assoc. f_equiv.
  apply Permutation_app_comm.
Qed.

Lemma names_split (es : list (string * node)) :
  filenames es ++ dirnames es ≡ₚ es.*1.
Proof.
  unfold filenames, dirnames. rewrite <- fmap_app. f_equiv.
  rewrite (comm (++)). apply filter_app_complement.
Qed.

#[local] Instance child_path_inj rel : Inj (=) (=) (child_path root rel).
Proof.
  intros x y Heq. unfold child_path in Heq.
  apply app_inv_head, app_inv_head in Heq. by injection Heq.
Qed.

Lemma here_NoDup rel es :
  NoDup es.*1 →
  NoDup (here_files specs root rel es ++ here_dirs specs root rel es).
Proof.
  intros Hnd. unfold here_files, here_dirs. rewrite <- fmap_app.
  apply (NoDup_fmap_2 _).
  rewrite <- names_split in Hnd.
  apply NoDup_app in Hnd as (Hf & Hdisj & Hd).
  apply NoDup_app. split; [by apply NoDup_filter|]. split.
  - intros x Hx Hx'. apply list_elem_of_filter in Hx as [_ Hx].
    apply list_elem_of_filter in Hx' as [_ Hx'].
    apply list_elem_of_filter in Hx' as [_ Hx']. by eapply Hdisj.
  - by apply NoDup_filter, NoDup_filter.
Qed.

Lemma here_length rel es p :
  p ∈ here_files specs root rel es ++ here_dirs specs root rel es →
  length p = length root + length rel + 1.
Proof.
  unfold here_files, here_dirs. rewrite <- fmap_app.
  intros (x & -> & _)%list_elem_of_fmap.
  unfold child_path. rewrite !length_app. cbn. lia.
Qed.

Lemma scan_paths_below n rel p :
  p ∈ scan_files specs root rel n ++ scan_dirs specs root rel n →
  ∃ q, q ≠ [] ∧ p = root ++ rel ++ q.
Proof.
  intros Hp. apply elem_of_app, scan_paths_shape in Hp as (q & ? & ? & _).
  eauto.
Qed.

(** What the scanner lists below the entries [l] of the directory at
    [rel] has no repetition. *)
Lemma sub_NoDup rel (l : list (string * node)) :
  NoDup l.*1 →
  Forall (λ e, ∀ rel', wf_node e.2 = true →
            NoDup (scan_files specs root rel' e.2 ++
                   scan_dirs specs root rel' e.2)) l →
  Forall (λ e, wf_node e.2 = true) l →
  NoDup (concat (map (λ e, if descends specs root rel e
                           then scan_files specs root (rel ++ [e.1]) e.2
                           else []) l) ++
         concat (map (λ e, if descends specs root rel e
                           then scan_dirs specs root (rel ++ [e.1]) e.2
                           else []) l)).
Proof.
  induction l as [|[x c] l IHl]; intros Hnd HIH Hwf; [constructor|].
  rewrite fmap_cons in Hnd. apply NoDup_cons in Hnd as [Hx Hnd].
  apply Forall_cons in HIH as [HIHc HIH].
  apply Forall_cons in Hwf as [Hwfc Hwf].
  cbn [map concat]. rewrite app_swap_middle.
  apply NoDup_app. split; [|split].
  - destruct (descends specs root rel (x, c)); [|constructor].
    by apply HIHc.
  - intros p Hp Hp'. cbn [fst snd] in Hp.
    assert (∃ q, p = root ++ rel ++ x :: q) as [q Hq].
    { destruct (descends specs root rel (x, c));
        [|by apply elem_of_nil in Hp].
      apply scan_paths_below in Hp as (q & _ & ->).
      exists q. by rewrite <- app_assoc. }
    assert (∃ e q', e ∈ l ∧ p = root ++ rel ++ e.1 :: q') as (e & q' & He & Hq').
    { apply elem_of_app in Hp'.
      rewrite !elem_of_concat_map in Hp'.
      destruct Hp' as [(e & He & Hin)|(e & He & Hin)];
        (destruct (descends specs root rel e); [|by apply elem_of_nil in Hin]).
      - assert (p ∈ scan_files specs root (rel ++ [e.1]) e.2 ++
                    scan_dirs specs root (rel ++ [e.1]) e.2) as Hboth
          by (apply elem_of_app; by left).
        apply scan_paths_below in Hboth as (q' & _ & ->).
        exists e, q'. by rewrite <- app_assoc.
      - assert (p ∈ scan_files specs root (rel ++ [e.1]) e.2 ++
                    scan_dirs specs root (rel ++ [e.1]) e.2) as Hboth
          by (apply elem_of_app; by right).
        apply scan_paths_below in Hboth as (q' & _ & ->).
        exists e, q'. by rewrite <- app_assoc. }
    rewrite Hq in Hq'. apply app_inv_head, app_inv_head in Hq'.
    injection Hq' as -> _. apply Hx. apply list_elem_of_fmap. by exists e.
  - by apply IHl.
Qed.

(** On a tree with distinct names in every directory, the two lists
    of the scanner together have no repetition. *)
Lemma scan_NoDup n :
  ∀ rel, wf_node n = true →
    NoDup (scan_files specs root rel n ++ scan_dirs specs root rel n).
Proof.
  induction n as [content|es IH] using node_ind; intros rel Hwf; [constructor|].
  apply wf_node_Dir in Hwf as [Hnd Hwf].
  cbn [scan_files scan_dirs]. rewrite app_swap_middle.
  apply NoDup_app. split; [by apply here_NoDup|]. split; [|by apply sub_NoDup].
  intros p Hhere Hsub. apply here_length in Hhere.
  apply elem_of_app in Hsub. rewrite !elem_of_concat_map in Hsub.
  assert (∃ e, p ∈ scan_files specs root (rel ++ [e.1]) e.2 ++
                   scan_dirs specs root (rel ++ [e.1]) e.2) as [e Hp].
  { destruct Hsub as [(e & He & Hin)|(e & He & Hin)];
      (destruct (descends specs root rel e); [|by apply elem_of_nil in Hin]);
      exists e; apply elem_of_app; auto. }
  apply scan_paths_below in Hp as (q & Hq & ->).
  rewrite !length_app in Hhere. cbn in Hhere.
  destruct q; [done|]. cbn in Hhere. lia.
Qed.

Lemma dirnames_cons x c es :
  dirnames ((x, c) :: es) = if is_dir_node c then x :: dirnames es else dirnames es.
Proof.
  unfold dirnames. destruct (is_dir_node c) eqn:Hc.
  - rewrite filter_cons_True by (cbn; rewrite Hc; exact I). done.
  - rewrite filter_cons_False by (cbn; rewrite Hc; exact id). done.
Qed.

Lemma filenames_cons x c es :
  filenames ((x, c) :: es) = if is_dir_node c then filenames es else x :: filenames es.
Proof.
  unfold filenames. destruct (is_dir_node c) eqn:Hc.
  - rewrite filter_cons_False by (cbn; rewrite Hc; intros Hn; by apply Hn).
    done.
  - rewrite filter_cons_True by (cbn; rewrite Hc; exact id). done.
Qed.

(** Listing the entries of every directory in another order permutes
    the two lists of the scanner. *)
Lemma scan_sibling_perm :
  (∀ n n', sibling_perm n n' →
     is_dir_node n = is_dir_node n' ∧
     ∀ rel, scan_files specs root rel n ≡ₚ scan_files specs root rel n' ∧
            scan_dirs specs root rel n ≡ₚ scan_dirs specs root rel n') ∧
  (∀ es es', entries_perm es es' →
     filenames es ≡ₚ filenames es' ∧ dirnames es ≡ₚ dirnames es' ∧
     ∀ rel,
       concat (map (λ e, if descends specs root rel e
                         then scan_files specs root (rel ++ [e.1]) e.2
                         else []) es) ≡ₚ
       concat (map (λ e, if descends specs root rel e
                         then scan_files specs root (rel ++ [e.1]) e.2
                         else []) es') ∧
       concat (map (λ e, if descends specs root rel e
                         then scan_dirs specs root (rel ++ [e.1]) e.2
                         else []) es) ≡ₚ
       concat (map (λ e, if descends specs root rel e
                         then scan_dirs specs root (rel ++ [e.1]) e.2
                         else []) es')).
Proof.
  apply sibling_entries_perm_ind.
  - intros lines. split; [done|]. intros rel. split; reflexivity.
  - intros es es' _ (Hf & Hd & Hsub). split; [done|]. intros rel.
    destruct (Hsub rel) as [HsF HsD].
    cbn [scan_files scan_dirs]. unfold here_files, here_dirs.
    split; [by rewrite Hf, HsF|by rewrite Hd, HsD].
  - split; [done|]. split; [done|]. intros rel. split; reflexivity.
  - intros x n n' es es' _ (Hdir & Hn) _ (Hf & Hd & Hsub).
    rewrite !filenames_cons, !dirnames_cons, <- Hdir.
    split; [destruct (is_dir_node n); by rewrite Hf|].
    split; [destruct (is_dir_node n); by rewrite Hd|].
    intros rel. destruct (Hsub rel) as [HsF HsD].
    destruct (Hn (rel ++ [x])) as [HnF HnD].
    cbn [map concat]. unfold descends. cbn [fst snd]. rewrite <- Hdir.
    split.
    + destruct (_ && _ && _); [by rewrite HnF, HsF|by rewrite HsF].
    + destruct (_ && _ && _); [by rewrite HnD, HsD|by rewrite HsD].
  - intros [x1 c1] [x2 c2] es es' _ (Hf & Hd & Hsub).
    rewrite !filenames_cons, !dirnames_cons.
    split; [destruct (is_dir_node c1), (is_dir_node c2); rewrite Hf;
            (done || apply perm_swap)|].
    split; [destruct (is_dir_node c1), (is_dir_node c2); rewrite Hd;
            (done || apply perm_swap)|].
    intros rel. destruct (Hsub rel) as [HsF HsD].
    cbn [map concat]. rewrite HsF, HsD, !app_assoc.
    split; f_equiv; apply Permutation_app_comm.
  - intros es1 es2 es3 _ (Hf & Hd & Hsub) _ (Hf' & Hd' & Hsub').
    split; [by rewrite Hf|]. split; [by rewrite Hd|].
    intros rel. destruct (Hsub rel) as [HsF HsD].
    destruct (Hsub' rel) as [HsF' HsD'].
    split; [by rewrite HsF|by rewrite HsD].
Qed.

Lemma entry_named_wf x es c :
  Forall (λ e, wf_node e.2 = true) es →
  entry_named x es = Some c → wf_node c = true.
Proof.
  induction 1 as [|[y n] es Hn Hes IH]; [done|].
  cbn [entry_named]. destruct (decide (y = x)); [|done].
  by intros [= <-].
Qed.

Lemma lookup_node_wf rel :
  ∀ t t', wf_node t = true → lookup_node t rel = Some t' → wf_node t' = true.
Proof.
  induction rel as [|x rel IH]; intros t t' Hwf Hlook.
  - cbn in Hlook. by injection Hlook as <-.
  - cbn [lookup_node] in Hlook. destruct t as [content|es]; [done|].
    apply wf_node_Dir in Hwf as [_ Hwf].
    destruct (entry_named x es) as [c|] eqn:Hc; [|done].
    cbn in Hlook. eapply IH; [|done]. by eapply entry_named_wf.
Qed.

Lemma stat_wf fs p t :
  wf_node fs = true → stat fs p = Some t → wf_node t = true.
Proof.
  unfold stat. destruct p as [|a rel]; [done|].
  destruct (decide (a = "/")); [|done]. intros. by eapply lookup_node_wf.
Qed.

(** The decision pass on a tree with distinct names: it returns the
    two lists [scan_files] and [scan_dirs]. *)
Lemma decision_pass_spec fs t :
  stat fs root = Some t → wf_node t = true →
  decision_pass fs root specs =
  Ok (scan_files specs root [] t, scan_dirs specs root [] t).
Proof.
  intros Hstat Hwf. unfold decision_pass, os_walk. rewrite Hstat.
  destruct (walk_scan_spec t []
              {| ignored_files := []; ignored_directories := [];
                 skip_directories := ∅ |})
    as (st' & Hwalk & Hf & Hd & _); [done| |done|].
  { intros q Hq. cbn in Hq. by apply not_elem_of_empty in Hq. }
  rewrite app_nil_r in Hwalk. rewrite Hwalk. cbn [mbind result_bind].
  by rewrite Hf, Hd.
Qed.

Lemma decision_pass_nothing fs :
  stat fs root = None → decision_pass fs root specs = Ok ([], []).
Proof. intros Hstat. unfold decision_pass, os_walk. by rewrite Hstat. Qed.

End ScannerFacts.

Section ScannerTheorems.
Context `{Matcher}.

(** What [find_ignored_files] returns on a filesystem with distinct
    names in every directory: nothing, or the two lists of the scanner
    for the rule map it collected. *)
Lemma find_ignored_files_spec fs root f d :
  wf_node fs = true →
  find_ignored_files fs root = Ok (f, d) →
  (f = [] ∧ d = []) ∨
  ∃ specs t, stat fs root = Some t ∧ wf_node t = true ∧
    f = scan_files specs root [] t ∧ d = scan_dirs specs root [] t.
Proof.
  intros Hwf. unfold find_ignored_files.
  destruct (collect_all_gitignore_specs fs root) as [specs|e];
    cbn [mbind result_bind]; [|done].
  destruct (decide (size specs = 0)); [intros [= <- <-]; by left|].
  destruct (stat fs root) as [t|] eqn:Hstat.
  - assert (wf_node t = true) as Hwft by (by eapply stat_wf).
    rewrite (decision_pass_spec root specs fs t) by done.
    intros [= <- <-]. right. by exists specs, t.
  - rewrite decision_pass_nothing by done. intros [= <- <-]. by left.
Qed.

(** C2.  On every filesystem (the names in a directory distinct), when
    the scan lists a directory [D] as ignored, no path in either of its
    two lists lies below [D]: the subtree of an ignored directory is
    neither enumerated nor classified. *)
Theorem ignored_directory_subtree_not_listed fs root f d :
  wf_node fs = true →
  find_ignored_files fs root = Ok (f, d) →
  ∀ D p, D ∈ d → p ∈ f ++ d → ¬ descendant_of p D.
Proof.
  intros Hwf Hfind D p HD Hp.
  destruct (find_ignored_files_spec fs root f d Hwf Hfind)
    as [[-> ->]|(specs & t & _ & _ & -> & ->)].
  - by apply elem_of_nil in HD.
  - by eapply scan_containment.
Qed.

(** C8.  On every filesystem (the names in a directory distinct), a
    path is listed at most once in the ignored files, at most once in
    the ignored directories, and never in both. *)
Theorem ignored_sets_disjoint_nodup fs root f d :
  wf_node fs = true →
  find_ignored_files fs root = Ok (f, d) →
  NoDup f ∧ NoDup d ∧ ∀ p, p ∈ f → p ∉ d.
Proof.
  intros Hwf Hfind.
  enough (NoDup (f ++ d)) as Hnd
    by (apply NoDup_app in Hnd as (? & ? & ?); done).
  destruct (find_ignored_files_spec fs root f d Hwf Hfind)
    as [[-> ->]|(specs & t & _ & Hwft & -> & ->)]; [constructor|].
  by apply scan_NoDup.
Qed.

(** C9.  For every rule map: two trees that differ only in the order
    in which each directory lists its entries give the decision pass
    the same ignored files and the same ignored directories, up to the
    order of the lists. *)
Theorem decision_pass_sibling_order fs fs' root specs t t' f d :
  stat fs root = Some t → stat fs' root = Some t' →
  wf_node t = true → wf_node t' = true →
  sibling_perm t t' →
  decision_pass fs root specs = Ok (f, d) →
  ∃ f' d', decision_pass fs' root specs = Ok (f', d') ∧
    f ≡ₚ f' ∧ d ≡ₚ d' ∧
    (∀ p, p ∈ f ↔ p ∈ f') ∧ (∀ p, p ∈ d ↔ p ∈ d').
Proof.
  intros Hstat Hstat' Hwf Hwf' Hperm.
  rewrite (decision_pass_spec root specs fs t) by done.
  intros [= <- <-].
  rewrite (decision_pass_spec root specs fs' t') by done.
  destruct (scan_sibling_perm root specs) as [Hnode _].
  destruct (Hnode t t' Hperm) as [_ Hscan].
  destruct (Hscan []) as [Hf Hd].
  eexists _, _. split; [done|]. split; [done|]. split; [done|].
  split; intros p; [by rewrite Hf|by rewrite Hd].
Qed.

End ScannerTheorems.

(** C3, on the code.  The collector walks into [.git], which the scanner
    skips: for the sample tree, whose [.git] directory holds an
    ignore-rule file, the rule map has an entry keyed at that directory. *)
Theorem collector_enters_git :
  (m ← @collect_all_gitignore_specs exact_matcher demo_fs demo_root;
   mret (m !! (demo_root ++ [".git"]))) = Ok (Some ["config"]).
Proof. by vm_compute. Qed.

Lemma sibling_perm_refl n : sibling_perm n n.
Proof.
  induction n as [content|es IH] using node_ind; constructor.
  induction IH as [|[x c] es Hc Hes IHes]; constructor; assumption.
Qed.

Lemma ignored_directory_subtree_not_listed_witness :
  wf_node demo_fs = true ∧
  find_ignored_files demo_fs demo_root =
    Ok ([demo_root ++ ["app.log"]; demo_root ++ ["tmp.log"];
         demo_root ++ ["src"; "gen.c"]],
        [demo_root ++ ["build"]]) ∧
  ∀ D p, D ∈ [demo_root ++ ["build"]] →
    p ∈ [demo_root ++ ["app.log"]; demo_root ++ ["tmp.log"];
         demo_root ++ ["src"; "gen.c"]] ++ [demo_root ++ ["build"]] →
    ¬ descendant_of p D.
Proof.
  split; [reflexivity|]. split; [vm_compute; reflexivity|].
  apply (ignored_directory_subtree_not_listed demo_fs demo_root);
    vm_compute; reflexivity.
Defined.

Lemma ignored_sets_disjoint_nodup_witness :
  wf_node demo_fs = true ∧
  NoDup [demo_root ++ ["app.log"]; demo_root ++ ["tmp.log"];
         demo_root ++ ["src"; "gen.c"]] ∧
  NoDup [demo_root ++ ["build"]] ∧
  ∀ p, p ∈ [demo_root ++ ["app.log"]; demo_root ++ ["tmp.log"];
            demo_root ++ ["src"; "gen.c"]] →
       p ∉ [demo_root ++ ["build"]].
Proof.
  split; [reflexivity|].
  apply (ignored_sets_disjoint_nodup demo_fs demo_root);
    vm_compute; reflexivity.
Defined.

Lemma demo_tree_sibling_perm : sibling_perm demo_tree demo_tree_reordered.
Proof.
  apply sibling_perm_dir.
  apply entries_perm_swap.
  apply entries_perm_swap.
  apply entries_perm_skip; [apply sibling_perm_refl|].
  apply entries_perm_skip.
  { apply sibling_perm_dir, entries_perm_swap, entries_perm_nil. }
  apply entries_perm_skip; [apply sibling_perm_refl|].
  apply entries_perm_nil.
Qed.

Lemma decision_pass_sibling_order_witness :
  ∃ f' d', decision_pass demo_fs_reordered demo_root demo_specs = Ok (f', d') ∧
    [demo_root ++ ["app.log"]; demo_root ++ ["tmp.log"];
     demo_root ++ ["src"; "gen.c"]] ≡ₚ f' ∧
    [demo_root ++ ["build"]] ≡ₚ d' ∧
    (∀ p, p ∈ [demo_root ++ ["app.log"]; demo_root ++ ["tmp.log"];
               demo_root ++ ["src"; "gen.c"]] ↔ p ∈ f') ∧
    (∀ p, p ∈ [demo_root ++ ["build"]] ↔ p ∈ d').
Proof.
  apply (decision_pass_sibling_order demo_fs demo_fs_reordered demo_root
           demo_specs demo_tree demo_tree_reordered).
  - reflexivity.
  - reflexivity.
  - reflexivity.
  - reflexivity.
  - exact demo_tree_sibling_perm.
  - vm_compute. reflexivity.
Defined.

(* ===================================================================== *)
(** ** The deletion planner against its specification *)
(* ===================================================================== *)

Section RemovalLoop.
(** One removal loop of [delete_items]: [step] is one round, [prim]
    the removal primitive it calls. *)
Variable root : Path.
Variable step : nat → Path → M nat.
Variable prim : Path → FS → FS * option string.
Variable call : Path → option string → event.
Variable done_line : Path → string.
Variable error_line : Path → string → string.

Hypothesis step_attempt : ∀ n rel w,
  step n (root ++ rel) w =
  ({| fs := (prim (root ++ rel) (fs w)).1; stdin := stdin w;
      trace := trace w ++
               attempt_events call done_line error_line
                 [root ++ rel] [(prim (root ++ rel) (fs w)).2] |},
   Ok (match (prim (root ++ rel) (fs w)).2 with
       | None => S n
       | Some _ => n
       end)).

Lemma attempt_events_cons p err items errs :
  attempt_events call done_line error_line (p :: items) (err :: errs) =
  attempt_events call done_line error_line [p] [err] ++
  attempt_events call done_line error_line items errs.
Proof. done. Qed.

(** The loop attempts every item, whatever the earlier removals did. *)
Lemma for_each_attempts items :
  Forall (below root) items →
  ∀ n w, ∃ fs' errs,
    length errs = length items ∧
    for_each step n items w =
    ({| fs := fs'; stdin := stdin w;
        trace := trace w ++
                 attempt_events call done_line error_line items errs |},
     Ok (n + length (filter (λ err, err = None) errs))).
Proof.
  induction 1 as [|p items [rel ->] Hitems IH]; intros n w.
  - exists (fs w), []. split; [done|]. cbn.
    rewrite app_nil_r, Nat.add_0_r. by destruct w.
  - cbn [for_each]. unfold mbind, M_bind at 1. rewrite step_attempt.
    set (r := prim (root ++ rel) (fs w)).
    edestruct IH as (fs' & errs & Hlen & ->).
    exists fs', (r.2 :: errs). split; [cbn; by rewrite Hlen|].
    cbn [fs stdin trace]. rewrite attempt_events_cons, <- app_assoc.
    do 2 f_equal. destruct (r.2) as [error|].
    + by rewrite filter_cons_False.
    + rewrite filter_cons_True by done. cbn. lia.
Qed.
End RemovalLoop.

Section SortedFacts.
Context {A : Type}.
Variable key : A → nat.

Lemma insert_sorted_perm (lt : A → A → bool) x l :
  insert_sorted lt x l ≡ₚ x :: l.
Proof.
  induction l as [|y l IH]; [done|]. cbn [insert_sorted].
  destruct (lt y x); [|done]. rewrite IH. apply perm_swap.
Qed.

Lemma sorted_perm (lt : A → A → bool) l : sorted lt l ≡ₚ l.
Proof.
  induction l as [|x l IH]; [done|]. cbn [sorted foldr].
  rewrite insert_sorted_perm. by f_equiv.
Qed.

Lemma length_sorted (lt : A → A → bool) l : length (sorted lt l) = length l.
Proof. by rewrite sorted_perm. Qed.

(** After [sorted(..., key=key, reverse=True)] nothing comes after an
    element with a smaller key. *)
Lemma sorted_key_reverse_descending l :
  StronglySorted (λ a b, key b ≤ key a) (sorted_key_reverse key l).
Proof.
  unfold sorted_key_reverse.
  induction l as [|x l IH]; [constructor|]. cbn [sorted foldr].
  fold (sorted (λ y x, (key x <? key y)%nat) l).
  induction IH as [|y l' Hl' IHl' Hy]; [repeat constructor|].
  cbn [insert_sorted]. destruct (key x <? key y)%nat eqn:Hlt.
  - apply Nat.ltb_lt in Hlt. constructor; [done|].
    rewrite insert_sorted_perm. constructor; [lia|done].
  - apply Nat.ltb_ge in Hlt. constructor; [by constructor|].
    constructor; [done|]. eapply Forall_impl; [exact Hy|].
    cbn. intros z Hz. lia.
Qed.

Lemma sorted_key_reverse_later l l1 a l2 b :
  sorted_key_reverse key l = l1 ++ a :: l2 → b ∈ l2 → key b ≤ key a.
Proof.
  intros Heq Hb. pose proof (sorted_key_reverse_descending l) as Hs.
  rewrite Heq in Hs. apply StronglySorted_app in Hs as (_ & _ & Hs).
  apply StronglySorted_cons in Hs as [Hall _].
  rewrite Forall_forall in Hall. by apply Hall.
Qed.
End SortedFacts.

Section TraceFacts.
Variables (done_line : Path → string) (error_line : Path → string → string).

Lemma unlink_calls_app t1 t2 :
  unlink_calls (t1 ++ t2) = unlink_calls t1 ++ unlink_calls t2.
Proof. apply omap_app. Qed.

Lemma rmtree_calls_app t1 t2 :
  rmtree_calls (t1 ++ t2) = rmtree_calls t1 ++ rmtree_calls t2.
Proof. apply omap_app. Qed.


Lemma count_events_app f t1 t2 :
  count_events f (t1 ++ t2) = count_events f t1 + count_events f t2.
Proof. unfold count_events. by rewrite filter_app, length_app. Qed.

Lemma count_events_singleton f e :
  count_events f [e] = if f e : bool then 1 else 0.
Proof.
  unfold count_events. rewrite filter_cons, filter_nil.
  destruct (decide (f e)) as [Hf|Hf]; destruct (f e);
    first [done | by destruct Hf].
Qed.

Lemma attempt_events_step call p err items errs :
  attempt_events call done_line error_line (p :: items) (err :: errs) =
  [call p err] ++
  [match err with
   | None => EStdout (done_line p)
   | Some error => EStderr (error_line p error)
   end] ++
  attempt_events call done_line error_line items errs.
Proof. done. Qed.

Lemma successes_cons (err : option string) errs :
  length (filter (λ err, err = None) (err :: errs)) =
  (if err is None then 1 else 0) + length (filter (λ err, err = None) errs).
Proof.
  destruct err; [by rewrite filter_cons_False|by rewrite filter_cons_True].
Qed.

Lemma unlink_attempts items : ∀ errs,
  length errs = length items →
  unlink_calls (attempt_events EUnlink done_line error_line items errs) = items ∧
  rmtree_calls (attempt_events EUnlink done_line error_line items errs) = [] ∧
  count_events is_unlinked
    (attempt_events EUnlink done_line error_line items errs) =
    length (filter (λ err, err = None) errs) ∧
  count_events is_rmtreed
    (attempt_events EUnlink done_line error_line items errs) = 0.
Proof.
  induction items as [|p items IH]; intros [|err errs] Hlen; try done.
  injection Hlen as Hlen. destruct (IH errs Hlen) as (IH1 & IH2 & IH3 & IH4).
  rewrite attempt_events_step, !unlink_calls_app, !rmtree_calls_app,
    !count_events_app, !count_events_singleton, successes_cons.
  rewrite IH1, IH2, IH3, IH4. by destruct err.
Qed.

Lemma rmtree_attempts items : ∀ errs,
  length errs = length items →
  rmtree_calls (attempt_events ERmtree done_line error_line items errs) = items ∧
  unlink_calls (attempt_events ERmtree done_line error_line items errs) = [] ∧
  count_events is_rmtreed
    (attempt_events ERmtree done_line error_line items errs) =
    length (filter (λ err, err = None) errs) ∧
  count_events is_unlinked
    (attempt_events ERmtree done_line error_line items errs) = 0.
Proof.
  induction items as [|p items IH]; intros [|err errs] Hlen; try done.
  injection Hlen as Hlen. destruct (IH errs Hlen) as (IH1 & IH2 & IH3 & IH4).
  rewrite attempt_events_step, !unlink_calls_app, !rmtree_calls_app,
    !count_events_app, !count_events_singleton, successes_cons.
  rewrite IH1, IH2, IH3, IH4. by destruct err.
Qed.


End TraceFacts.

Section DeletionFacts.
Context `{Matcher} `{Platform}.
Variable root : Path.

Lemma drop_root rel : drop (length root) (root ++ rel) = rel.
Proof. by rewrite drop_app_length. Qed.

Lemma delete_file_attempt n rel w :
  delete_file root false n (root ++ rel) w =
  ({| fs := (unlink (root ++ rel) (fs w)).1; stdin := stdin w;
      trace := trace w ++
               attempt_events EUnlink (file_done_line root) (file_error_line root)
                 [root ++ rel] [(unlink (root ++ rel) (fs w)).2] |},
   Ok (match (unlink (root ++ rel) (fs w)).2 with
       | None => S n
       | Some _ => n
       end)).
Proof.
  unfold delete_file. cbn [attempt_events].
  unfold file_done_line, file_error_line.
  rewrite relative_to_app, drop_root.
  unfold mbind, M_bind, lift, try_except_OSError, call_unlink, print,
    print_err, emit, mret, M_ret.
  destruct (unlink (root ++ rel) (fs w)) as [fs' [error|]];
    cbn; by rewrite <- app_assoc.
Qed.

Lemma delete_directory_attempt n rel w :
  delete_directory root false n (root ++ rel) w =
  ({| fs := (rmtree (root ++ rel) (fs w)).1; stdin := stdin w;
      trace := trace w ++
               attempt_events ERmtree (dir_done_line root) (dir_error_line root)
                 [root ++ rel] [(rmtree (root ++ rel) (fs w)).2] |},
   Ok (match (rmtree (root ++ rel) (fs w)).2 with
       | None => S n
       | Some _ => n
       end)).
Proof.
  unfold delete_directory. cbn [attempt_events].
  unfold dir_done_line, dir_error_line.
  rewrite relative_to_app, drop_root.
  unfold mbind, M_bind, lift, try_except_OSError, call_rmtree, print,
    print_err, emit, mret, M_ret.
  destruct (rmtree (root ++ rel) (fs w)) as [fs' [error|]];
    cbn; by rewrite <- app_assoc.
Qed.

Lemma sorted_below (key : Path → nat) dirs :
  Forall (below root) dirs → Forall (below root) (sorted_key_reverse key dirs).
Proof.
  intros Hd. unfold sorted_key_reverse. by rewrite sorted_perm.
Qed.

(** A real run of [delete_items]: both loops attempt every item. *)
Lemma delete_items_attempts files dirs w :
  Forall (below root) files → Forall (below root) dirs →
  ∃ fs' ferrs derrs,
    length ferrs = length files ∧ length derrs = length dirs ∧
    delete_items files dirs root false w =
    ({| fs := fs'; stdin := stdin w;
        trace := trace w ++
          attempt_events EUnlink (file_done_line root) (file_error_line root)
            files ferrs ++
          attempt_events ERmtree (dir_done_line root) (dir_error_line root)
            (sorted_key_reverse (λ p : Path, length p) dirs) derrs |},
     Ok (length (filter (λ err, err = None) ferrs),
         length (filter (λ err, err = None) derrs))).
Proof.
  intros Hfiles Hdirs. unfold delete_items.
  destruct (for_each_attempts root (delete_file root false) unlink EUnlink
              (file_done_line root) (file_error_line root)
              delete_file_attempt files Hfiles 0 w)
    as (fs1 & ferrs & Hflen & Hfrun).
  unfold mbind, M_bind at 1. rewrite Hfrun.
  set (w1 := {| fs := fs1; stdin := stdin w; trace := _ |}).
  destruct (for_each_attempts root (delete_directory root false) rmtree ERmtree
              (dir_done_line root) (dir_error_line root)
              delete_directory_attempt
              (sorted_key_reverse (λ p : Path, length p) dirs)
              (sorted_below _ dirs Hdirs) 0 w1)
    as (fs2 & derrs & Hdlen & Hdrun).
  unfold mbind, M_bind. rewrite Hdrun.
  exists fs2, ferrs, derrs. split; [done|]. split.
  { rewrite Hdlen. unfold sorted_key_reverse. apply length_sorted. }
  unfold w1. cbn. by rewrite <- app_assoc.
Qed.





End DeletionFacts.

Section DeletionTheorems.
Context `{Platform}.



(** C4.  A real run of [delete_items] on directories below the root
    hands to [shutil.rmtree] exactly the given directories, in the
    order of the stable sort by depth, deepest first: no directory is
    attempted after a shallower one, so of two directories of different
    depth the deeper is attempted first. *)
Theorem delete_items_deepest_first files dirs root w :
  Forall (below root) files → Forall (below root) dirs →
  ∃ w' counts T,
    delete_items files dirs root false w = (w', Ok counts) ∧
    trace w' = trace w ++ T ∧
    rmtree_calls T = sorted_key_reverse (λ p : Path, length p) dirs ∧
    rmtree_calls T ≡ₚ dirs ∧
    (∀ before A after B,
       rmtree_calls T = before ++ A :: after → B ∈ after →
       length B ≤ length A) ∧
    (∀ i j A B,
       rmtree_calls T !! i = Some A → rmtree_calls T !! j = Some B →
       length A < length B → j < i).
Proof.
  intros Hfiles Hdirs.
  destruct (delete_items_attempts root files dirs w Hfiles Hdirs)
    as (fs' & ferrs & derrs & Hflen & Hdlen & Hrun).
  eexists _, _, _. split; [exact Hrun|]. split; [done|].
  destruct (unlink_attempts (file_done_line root) (file_error_line root)
              files ferrs Hflen) as (_ & Hfr & _).
  assert (length derrs =
          length (sorted_key_reverse (λ p : Path, length p) dirs)) as Hdlen'.
  { rewrite Hdlen. unfold sorted_key_reverse. by rewrite length_sorted. }
  destruct (rmtree_attempts (dir_done_line root) (dir_error_line root)
              _ derrs Hdlen') as (Hdr & _).
  rewrite rmtree_calls_app, Hfr, Hdr. cbn [app].
  assert (∀ before A after B,
            sorted_key_reverse (λ p : Path, length p) dirs =
              before ++ A :: after →
            B ∈ after → length B ≤ length A) as Hlater.
  { intros before A after B. apply sorted_key_reverse_later. }
  split; [done|]. split; [apply sorted_perm|]. split; [done|].
  intros i j A B Hi Hj Hdepth.
  destruct (decide (j < i)) as [|Hge]; [done|]. exfalso.
  destruct (decide (i = j)) as [->|Hne]; [rewrite Hi in Hj; injection Hj as ->; lia|].
  pose proof (take_drop_middle _ _ _ Hi) as Hsplit.
  assert (B ∈ drop (S i) (sorted_key_reverse (λ p : Path, length p) dirs)) as HB.
  { apply list_elem_of_lookup. exists (j - S i).
    rewrite lookup_drop. replace (S i + (j - S i)) with j by lia. done. }
  symmetry in Hsplit. pose proof (Hlater _ _ _ _ Hsplit HB). lia.
Qed.


End DeletionTheorems.


(* ===================================================================== *)
(** ** The entry point against its specification *)
(* ===================================================================== *)

Section WpRules.
Lemma wp_bind {A B} (c : M A) (k : A → M B) post w :
  wp c (λ w' r, match r with
                | Ok a => wp (k a) post w'
                | Raise e => post w' (Raise e)
                end) w →
  wp (c ≫= k) post w.
Proof.
  unfold wp, mbind, M_bind. by destruct (c w) as [w' [a|e]].
Qed.

Lemma wp_ret {A} (a : A) post w : post w (Ok a) → wp (mret a) post w.
Proof. done. Qed.

Lemma wp_raise {A} (e : exn) (post : world → result A → Prop) w :
  post w (Raise e) → wp (raise e) post w.
Proof. done. Qed.

Lemma wp_lift {A} (r : result A) post w : post w r → wp (lift r) post w.
Proof. done. Qed.

Lemma wp_get_world post w : post w (Ok w) → wp get_world post w.
Proof. done. Qed.

Lemma wp_emit e post w :
  post {| fs := fs w; stdin := stdin w; trace := trace w ++ [e] |} (Ok tt) →
  wp (emit e) post w.
Proof. done. Qed.

Lemma wp_input prompt post w :
  post {| fs := fs w; stdin := tail (stdin w);
          trace := trace w ++ [EStdout prompt] |}
       (match stdin w with
        | line :: _ => Ok line
        | [] => Raise EOFError
        end) →
  wp (input prompt) post w.
Proof. unfold wp, input. by destruct (stdin w). Qed.

Lemma wp_mono {A} (c : M A) (post post' : world → result A → Prop) w :
  wp c post w → (∀ w' r, post w' r → post' w' r) → wp c post' w.
Proof. unfold wp. auto. Qed.

Lemma quiet_step_refl w : quiet_step w w.
Proof. split; [done|]. exists []. by rewrite app_nil_r. Qed.

Lemma quiet_step_trans w1 w2 w3 :
  quiet_step w1 w2 → quiet_step w2 w3 → quiet_step w1 w3.
Proof.
  intros [Hfs1 (T1 & Ht1 & Hc1)] [Hfs2 (T2 & Ht2 & Hc2)].
  split; [congruence|]. exists (T1 ++ T2).
  rewrite Ht2, Ht1, <- app_assoc, count_events_app. split; [done|lia].
Qed.

Lemma quiet_step_emit w e x :
  is_removal e = false →
  quiet_step w {| fs := fs w; stdin := x; trace := trace w ++ [e] |}.
Proof.
  intros He. split; [done|]. exists [e]. split; [done|].
  by rewrite count_events_singleton, He.
Qed.


End WpRules.

Section EntryPointFacts.
Context `{Matcher} `{Platform}.

Lemma prints_only_ret : prints_only (mret tt).
Proof. intros post w Hpost. apply wp_ret, Hpost; [apply quiet_step_refl|done]. Qed.

Lemma prints_only_print line : prints_only (print line).
Proof.
  intros post w Hpost. apply wp_emit, Hpost; [|done].
  by apply quiet_step_emit.
Qed.

Lemma prints_only_seq (c1 c2 : M unit) :
  prints_only c1 → prints_only c2 → prints_only (c1 ;; c2).
Proof.
  intros H1 H2 post w Hpost. apply wp_bind, H1. intros w1 Hq1 Hs1.
  apply H2. intros w2 Hq2 Hs2. apply Hpost; [|congruence].
  by eapply quiet_step_trans.
Qed.

Lemma prints_only_for_each root (line : Path → string) items :
  Forall (below root) items →
  prints_only
    (for_each (λ _ p, relative_path ← lift (relative_to p root);
                      print (line relative_path)) tt items).
Proof.
  induction 1 as [|p items [rel ->] Hitems IH]; [apply prints_only_ret|].
  cbn [for_each]. intros post w Hpost.
  apply wp_bind, wp_bind, wp_lift. rewrite relative_to_app.
  apply prints_only_print. intros w1 Hq1 Hs1.
  apply IH. intros w2 Hq2 Hs2. apply Hpost; [|congruence].
  by eapply quiet_step_trans.
Qed.

Lemma sorted_paths_below root (l : list Path) :
  Forall (below root) l → Forall (below root) (sorted path_ltb l).
Proof. intros Hl. by rewrite sorted_perm. Qed.

Lemma prints_only_display f d root :
  Forall (below root) f → Forall (below root) d →
  prints_only (display_ignored_items f d root).
Proof.
  intros Hf Hd. unfold display_ignored_items.
  destruct (decide (length f + length d = 0)); [apply prints_only_print|].
  apply prints_only_seq; [apply prints_only_print|].
  apply prints_only_seq.
  { destruct (decide (d = [])); [apply prints_only_ret|].
    apply prints_only_seq; [apply prints_only_print|].
    by apply (prints_only_for_each root (λ rel, "  [DIR]  " +:+ str rel +:+ "/")),
      sorted_paths_below. }
  apply prints_only_seq; [|apply prints_only_print].
  destruct (decide (f = [])); [apply prints_only_ret|].
  apply prints_only_seq; [apply prints_only_print|].
  by apply (prints_only_for_each root (λ rel, "  [FILE] " +:+ str rel)),
    sorted_paths_below.
Qed.

(** [confirm_deletion] only prompts and reads; it returns an answer
    when some pending line is one, and otherwise meets the end of the
    input. *)
Lemma wp_confirm_deletion_rounds pending :
  ∀ (post : world → result bool → Prop) w,
    stdin w = pending →
    (∀ w' r, quiet_step w w' →
       ((∃ b, r = Ok b) ∧ existsb is_answer pending = true ∨
        r = Raise EOFError ∧ existsb is_answer pending = false) →
       post w' r) →
    wp (confirm_deletion_rounds pending) post w.
Proof.
  induction pending as [|line pending IH]; intros post w Hstdin Hpost.
  - cbn [confirm_deletion_rounds]. apply wp_bind, wp_input. rewrite Hstdin.
    apply Hpost; [by apply quiet_step_emit|by right].
  - cbn [confirm_deletion_rounds]. apply wp_bind, wp_input. rewrite Hstdin.
    cbn [tail existsb] in *.
    set (w1 := {| fs := fs w; stdin := pending; trace := _ |}).
    assert (quiet_step w w1) as Hq1 by (by apply quiet_step_emit).
    assert (is_answer line =
            bool_decide (lower (strip line) ∈ ["yes"; "y"])
            || bool_decide (lower (strip line) ∈ ["no"; "n"])) as Hline
      by done.
    rewrite Hline in Hpost.
    destruct (bool_decide (lower (strip line) ∈ ["yes"; "y"])).
    { apply wp_ret, Hpost; eauto. }
    destruct (bool_decide (lower (strip line) ∈ ["no"; "n"])).
    { apply wp_ret, Hpost; eauto. }
    apply wp_bind, prints_only_print. intros w2 Hq2 Hs2.
    apply IH; [done|]. intros w' r Hq Hr. apply Hpost; [|done].
    eapply quiet_step_trans; [|exact Hq]. by eapply quiet_step_trans.
Qed.

Lemma wp_confirm_deletion (post : world → result bool → Prop) w :
  (∀ w' r, quiet_step w w' →
     ((∃ b, r = Ok b) ∧ existsb is_answer (stdin w) = true ∨
      r = Raise EOFError ∧ existsb is_answer (stdin w) = false) →
     post w' r) →
  wp confirm_deletion post w.
Proof.
  intros Hpost. unfold confirm_deletion. apply wp_bind, wp_get_world.
  by apply wp_confirm_deletion_rounds.
Qed.

Lemma wp_scan root (post : world → result (list Path * list Path) → Prop) w :
  post {| fs := fs w; stdin := stdin w; trace := trace w ++ [EScan root] |}
       (find_ignored_files (fs w) root) →
  wp (scan root) post w.
Proof.
  intros Hpost. unfold scan. apply wp_bind, wp_emit, wp_bind, wp_get_world.
  by apply wp_lift.
Qed.




Lemma find_ignored_files_below fs root f d :
  wf_node fs = true →
  find_ignored_files fs root = Ok (f, d) →
  Forall (below root) f ∧ Forall (below root) d.
Proof.
  intros Hwf Hfind.
  destruct (find_ignored_files_spec fs root f d Hwf Hfind)
    as [[-> ->]|(specs & t & _ & _ & -> & ->)]; [done|].
  split; apply Forall_forall; intros p Hp.
  - assert (p ∈ scan_files specs root [] t ++ scan_dirs specs root [] t) as Hboth
      by (apply elem_of_app; by left).
    apply scan_paths_below in Hboth as (q & _ & ->). by exists q.
  - assert (p ∈ scan_files specs root [] t ++ scan_dirs specs root [] t) as Hboth
      by (apply elem_of_app; by right).
    apply scan_paths_below in Hboth as (q & _ & ->). by exists q.
Qed.

End EntryPointFacts.

Section EntryPointTheorems.
Context `{Matcher} `{Platform}.


Lemma main_parsed argv args w :
  argparse argv = Parsed args → main argv w = main_body args w.
Proof. intros Hparse. unfold main, parse_args. by rewrite Hparse. Qed.

Lemma for_each_written printed w :
  for_each (λ _ o, emit (written o)) tt printed w =
  ({| fs := fs w; stdin := stdin w;
      trace := trace w ++ (written <$> printed) |}, Ok tt).
Proof.
  revert w. induction printed as [|o printed IH]; intros w.
  - cbn. rewrite app_nil_r. by destruct w.
  - cbn [for_each]. unfold mbind, M_bind, emit. rewrite IH.
    cbn [fs stdin trace]. by rewrite fmap_cons, <- app_assoc.
Qed.

Lemma written_quiet printed :
  count_events is_removal (written <$> printed) = 0.
Proof.
  induction printed as [|[[|] text] printed IH]; [done| |];
    rewrite fmap_cons; change (?e :: ?T) with ([e] ++ T);
    by rewrite count_events_app, count_events_singleton, IH.
Qed.

Lemma main_exits argv status printed w :
  argparse argv = Exits status printed →
  main argv w =
  ({| fs := fs w; stdin := stdin w;
      trace := trace w ++ (written <$> printed) |},
   Raise (SystemExit status)).
Proof.
  intros Hparse. unfold main, parse_args. rewrite Hparse.
  unfold mbind, M_bind. by rewrite for_each_written.
Qed.



End EntryPointTheorems.

(* ===================================================================== *)
(** ** The theorems on the sample data *)
(* ===================================================================== *)

Lemma delete_items_deepest_first_witness :
  ∃ w' counts T,
    @delete_items lenient_platform [demo_root ++ ["app.log"]]
      [demo_root ++ ["build"]; demo_root ++ ["src"; "gen"; "obj"];
       demo_root ++ ["tmp"; "x"]]
      demo_root false (World demo_fs [] []) = (w', Ok counts) ∧
    trace w' = trace (World demo_fs [] []) ++ T ∧
    rmtree_calls T =
      sorted_key_reverse (λ p : Path, length p)
        [demo_root ++ ["build"]; demo_root ++ ["src"; "gen"; "obj"];
         demo_root ++ ["tmp"; "x"]] ∧
    rmtree_calls T ≡ₚ
      [demo_root ++ ["build"]; demo_root ++ ["src"; "gen"; "obj"];
       demo_root ++ ["tmp"; "x"]] ∧
    (∀ before A after B,
       rmtree_calls T = before ++ A :: after → B ∈ after →
       length B ≤ length A) ∧
    (∀ i j A B,
       rmtree_calls T !! i = Some A → rmtree_calls T !! j = Some B →
       length A < length B → j < i).
Proof.
  apply (@delete_items_deepest_first lenient_platform).
  - repeat constructor. by exists ["app.log"].
  - repeat constructor;
      [by exists ["build"]|by exists ["src"; "gen"; "obj"]|by exists ["tmp"; "x"]].
Defined.





(* ===================================================================== *)
(** ** Further properties of the classifier *)
(* ===================================================================== *)

Section ClassifierMore.
Context `{Matcher}.
Implicit Types (specs : gmap Path PathSpec) (root rel : Path).

Lemma relative_to_not_below (root p : Path) :
  ¬ below root p → ∃ msg, relative_to p root = Raise (ValueError msg).
Proof.
  revert p. induction root as [|o root IH]; intros p Hnot.
  - destruct Hnot. by exists p.
  - cbn [relative_to]. destruct p as [|x p]; [by eexists|].
    destruct (decide (x = o)) as [->|Hne]; [|by eexists].
    apply IH. intros [rel ->]. apply Hnot. by exists rel.
Qed.

Lemma file_verdict_true specs root dirs fname :
  file_verdict specs root dirs fname = true ↔
  ∃ k spec, k ≤ length dirs ∧ specs !! (root ++ take k dirs) = Some spec ∧
    match_file spec (str (drop k dirs ++ [fname])) = true.
Proof.
  unfold file_verdict. rewrite existsb_seq_true. unfold file_scope_hit. split.
  - intros (k & Hk & Hhit).
    destruct (specs !! (root ++ take k dirs)) as [spec|] eqn:Hspec; [|done].
    exists k, spec. split; [lia|done].
  - intros (k & spec & Hk & Hspec & Hhit). exists k. split; [lia|].
    by rewrite Hspec.
Qed.

Lemma dir_verdict_true specs root rel :
  dir_verdict specs root rel = true ↔
  ∃ k spec, k < length rel ∧ specs !! (root ++ take k rel) = Some spec ∧
    (match_file spec (str (drop k rel) +:+ "/") = true ∨
     match_file spec (str (drop k rel)) = true).
Proof.
  unfold dir_verdict. rewrite existsb_seq_true. unfold dir_scope_hit. split.
  - intros (k & Hk & Hhit).
    destruct (specs !! (root ++ take k rel)) as [spec|] eqn:Hspec; [|done].
    exists k, spec. split; [done|]. split; [done|].
    by apply orb_true_iff in Hhit.
  - intros (k & spec & Hk & Hspec & Hhit). exists k. split; [done|].
    rewrite Hspec. by apply orb_true_iff.
Qed.

(** X1.  For a directory below the root, [is_directory_ignored] returns,
    and it returns [true] exactly when the rule scope of some strict
    ancestor (the root, ..., the parent) matches the directory's path
    relative to that ancestor, written with a trailing slash or without. *)
Theorem is_directory_ignored_some_ancestor specs root rel :
  ∃ b, is_directory_ignored (root ++ rel) root specs = Ok b ∧
    (b = true ↔
     ∃ k spec, k < length rel ∧ specs !! (root ++ take k rel) = Some spec ∧
       (match_file spec (str (drop k rel) +:+ "/") = true ∨
        match_file spec (str (drop k rel)) = true)).
Proof.
  exists (dir_verdict specs root rel).
  split; [apply is_directory_ignored_verdict|apply dir_verdict_true].
Qed.

(** X2.  Absence of rules keeps: a file or a directory below the root
    none of whose ancestors, from the root to its parent, has a rule
    scope is classified not ignored. *)
Theorem no_scope_not_ignored specs root dirs x :
  x ≠ "/" →
  (∀ k, k ≤ length dirs → specs !! (root ++ take k dirs) = None) →
  is_file_ignored (root ++ dirs ++ [x]) root specs = Ok false ∧
  is_directory_ignored (root ++ dirs ++ [x]) root specs = Ok false.
Proof.
  intros Hx Hnone. split.
  - rewrite is_file_ignored_verdict by done. f_equal.
    apply not_true_is_false. rewrite file_verdict_true.
    intros (k & spec & Hk & Hspec & _). by rewrite Hnone in Hspec.
  - rewrite is_directory_ignored_verdict. f_equal.
    apply not_true_is_false. rewrite dir_verdict_true.
    intros (k & spec & Hk & Hspec & _).
    rewrite length_app in Hk. cbn in Hk.
    rewrite take_app_le in Hspec by lia. rewrite Hnone in Hspec; [done|lia].
Qed.

(** X3.  Scopes only add: what is classified ignored under a rule map
    stays ignored under every larger rule map.  A rule file deeper in the
    tree cannot take back what the rule file of an ancestor ignores. *)
Theorem more_scopes_never_unignore specs specs' root dirs x :
  x ≠ "/" →
  specs ⊆ specs' →
  (is_file_ignored (root ++ dirs ++ [x]) root specs = Ok true →
   is_file_ignored (root ++ dirs ++ [x]) root specs' = Ok true) ∧
  (is_directory_ignored (root ++ dirs ++ [x]) root specs = Ok true →
   is_directory_ignored (root ++ dirs ++ [x]) root specs' = Ok true).
Proof.
  intros Hx Hsub. split.
  - rewrite !is_file_ignored_verdict by done. intros [= Hv]. f_equal.
    apply file_verdict_true in Hv as (k & spec & Hk & Hspec & Hhit).
    apply file_verdict_true. exists k, spec. split; [done|]. split; [|done].
    by eapply lookup_weaken.
  - rewrite !is_directory_ignored_verdict. intros [= Hv]. f_equal.
    apply dir_verdict_true in Hv as (k & spec & Hk & Hspec & Hhit).
    apply dir_verdict_true. exists k, spec. split; [done|]. split; [|done].
    by eapply lookup_weaken.
Qed.

(** X4.  On a path that is not the root or below it both classifiers
    raise [ValueError] (from [relative_to]) instead of answering. *)
Theorem classifier_outside_root specs root p :
  ¬ below root p →
  (∃ msg, is_file_ignored p root specs = Raise (ValueError msg)) ∧
  (∃ msg, is_directory_ignored p root specs = Raise (ValueError msg)).
Proof.
  intros Hnot. destruct (relative_to_not_below root p Hnot) as [msg Hmsg].
  unfold is_file_ignored, is_directory_ignored. rewrite Hmsg.
  split; by exists msg.
Qed.

End ClassifierMore.

(* ===================================================================== *)
(** ** Further properties of the scanner *)
(* ===================================================================== *)

Lemma entry_named_elem x es c : entry_named x es = Some c → (x, c) ∈ es.
Proof.
  induction es as [|[y n] es IH]; [done|]. cbn [entry_named].
  destruct (decide (y = x)) as [->|]; [intros [= ->]; left|].
  intros Hc. right. by apply IH.
Qed.

Lemma entry_named_NoDup x es c :
  NoDup es.*1 → (x, c) ∈ es → entry_named x es = Some c.
Proof.
  induction es as [|[y n] es IH]; intros Hnd Hin; [by apply elem_of_nil in Hin|].
  rewrite fmap_cons in Hnd. apply NoDup_cons in Hnd as [Hy Hnd].
  cbn [entry_named]. apply elem_of_cons in Hin as [[= -> ->]|Hin].
  - by rewrite decide_True.
  - rewrite decide_False; [by apply IH|]. intros ->. apply Hy.
    apply list_elem_of_fmap. by exists (x, c).
Qed.

Lemma elem_of_filenames x es :
  x ∈ filenames es ↔ ∃ c, (x, c) ∈ es ∧ is_dir_node c = false.
Proof.
  unfold filenames. rewrite list_elem_of_fmap. split.
  - intros ([y c] & -> & Hin). apply list_elem_of_filter in Hin as [Hd Hin].
    exists c. split; [done|]. cbn in Hd. by destruct (is_dir_node c).
  - intros (c & Hin & Hd). exists (x, c). split; [done|].
    apply list_elem_of_filter. split; [|done]. cbn. rewrite Hd. exact id.
Qed.

Lemma lookup_node_app t q1 q2 :
  lookup_node t (q1 ++ q2) = t' ← lookup_node t q1; lookup_node t' q2.
Proof.
  revert t. induction q1 as [|x q1 IH]; intros t; [done|].
  cbn [app lookup_node]. destruct t as [content|es]; [done|].
  destruct (entry_named x es) as [c|]; [|done]. cbn. apply IH.
Qed.

Lemma stat_app fs root t q :
  stat fs root = Some t → stat fs (root ++ q) = lookup_node t q.
Proof.
  unfold stat. destruct root as [|a root]; [done|]. cbn [app].
  destruct (decide (a = "/")); [|done]. intros Hroot.
  by rewrite lookup_node_app, Hroot.
Qed.

Lemma last_cons_take {A} (x : A) (q : list A) k :
  k < length q → last (x :: take (S k) q) = last (take (S k) q).
Proof. intros Hk. destruct q; [cbn in Hk; lia|done]. Qed.

Section ScannerMore.
Context `{Matcher}.
Variable root : Path.
Variable specs : gmap Path PathSpec.

Lemma reached_one rel x : reached specs root rel [x].
Proof. intros k ? Hk. cbn in Hk. lia. Qed.

Lemma reached_cons rel x q :
  q ≠ [] →
  reached specs root rel (x :: q) ↔
  dir_verdict specs root (rel ++ [x]) = false ∧ x ≠ ".git" ∧
  reached specs root (rel ++ [x]) q.
Proof.
  intros Hq. split.
  - intros Hreach. destruct (Hreach 1) as [Hv Hgit]; [lia| |].
    { destruct q; [done|cbn; lia]. }
    cbn [take] in Hv, Hgit. rewrite take_0 in Hv, Hgit.
    split; [done|]. split; [by intros ->|].
    intros k Hk0 Hk. destruct (Hreach (S k)) as [Hv' Hgit']; [lia|cbn; lia|].
    cbn [take] in Hv', Hgit'. rewrite <- app_assoc. split; [done|].
    destruct k as [|k]; [lia|]. rewrite last_cons_take in Hgit' by lia. done.
  - intros (Hv & Hgit & Hreach) [|[|k]] Hk0 Hk; [lia| |].
    + cbn [take]. rewrite take_0. split; [done|]. by intros [= ->].
    + cbn [length] in Hk. destruct (Hreach (S k)) as [Hv' Hgit']; [lia|lia|].
      cbn [take]. rewrite <- app_assoc in Hv'. split; [done|].
      rewrite last_cons_take by lia. done.
Qed.

Lemma descends_iff rel x c :
  descends specs root rel (x, c) = true ↔
  is_dir_node c = true ∧ x ≠ ".git" ∧ dir_verdict specs root (rel ++ [x]) = false.
Proof.
  unfold descends. cbn [fst snd].
  rewrite !andb_true_iff, bool_decide_eq_true, negb_true_iff. tauto.
Qed.

(** The files the scanner lists from the directory at [rel] are the
    files of the tree it reaches that [is_file_ignored] classifies
    ignored. *)
Lemma scan_files_exact n :
  ∀ rel, wf_node n = true →
    ∀ p, p ∈ scan_files specs root rel n ↔
      ∃ q content, p = root ++ rel ++ q ∧ q ≠ [] ∧
        lookup_node n q = Some (File content) ∧
        file_ignored specs root (rel ++ q) = true ∧
        reached specs root rel q.
Proof.
  induction n as [content|es IH] using node_ind; intros rel Hwf p.
  { split; [by intros ?%elem_of_nil|].
    intros (q & content' & _ & Hq & Hlook & _). by destruct q. }
  apply wf_node_Dir in Hwf as [Hnd Hwf].
  rewrite Forall_forall in IH. rewrite Forall_forall in Hwf.
  cbn [scan_files]. unfold here_files.
  rewrite elem_of_app, list_elem_of_fmap, elem_of_concat_map. split.
  - intros [(x & -> & Hx)|([x c] & He & Hin)].
    + apply list_elem_of_filter in Hx as [Hign Hx].
      apply elem_of_filenames in Hx as (c & Hc & Hfile).
      destruct c as [content|]; [|done].
      exists [x], content. split; [done|]. split; [done|].
      cbn [lookup_node]. rewrite (entry_named_NoDup x es (File content)) by done.
      split; [done|]. split; [by apply Is_true_true|apply reached_one].
    + destruct (descends specs root rel (x, c)) eqn:Hdesc;
        [|by apply elem_of_nil in Hin].
      cbn [fst snd] in Hin. apply descends_iff in Hdesc as (Hdir & Hgit & Hv).
      apply (IH _ He) in Hin as (q & content & -> & Hq & Hlook & Hign & Hreach);
        [|by apply (Hwf _ He)].
      exists (x :: q), content. rewrite <- !app_assoc in *. split; [done|].
      split; [done|]. cbn [lookup_node].
      rewrite (entry_named_NoDup x es c) by done. split; [done|].
      split; [done|]. by apply reached_cons.
  - intros (q & content & -> & Hq & Hlook & Hign & Hreach).
    destruct q as [|x q]; [done|]. cbn [lookup_node] in Hlook.
    destruct (entry_named x es) as [c|] eqn:Hc; [|done]. cbn in Hlook.
    apply entry_named_elem in Hc.
    destruct q as [|y q].
    + cbn in Hlook. injection Hlook as ->. left. exists x. split; [done|].
      apply list_elem_of_filter. split; [by apply Is_true_true|].
      apply elem_of_filenames. by exists (File content).
    + right. exists (x, c). split; [done|].
      apply reached_cons in Hreach as (Hv & Hgit & Hreach); [|done].
      assert (is_dir_node c = true) as Hdir by (by destruct c).
      assert (descends specs root rel (x, c) = true) as ->
        by (by apply descends_iff).
      cbn [fst snd]. apply (IH _ Hc); [by apply (Hwf _ Hc)|].
      exists (y :: q), content. rewrite <- !app_assoc in *. done.
Qed.

(** The directories the scanner lists from the directory at [rel] are
    the directories of the tree it reaches, other than [.git], that
    [is_directory_ignored] classifies ignored. *)
Lemma scan_dirs_exact n :
  ∀ rel, wf_node n = true →
    ∀ p, p ∈ scan_dirs specs root rel n ↔
      ∃ q es, p = root ++ rel ++ q ∧ q ≠ [] ∧
        lookup_node n q = Some (Dir es) ∧ last q ≠ Some ".git" ∧
        dir_verdict specs root (rel ++ q) = true ∧
        reached specs root rel q.
Proof.
  induction n as [content|es IH] using node_ind; intros rel Hwf p.
  { split; [by intros ?%elem_of_nil|].
    intros (q & es' & _ & Hq & Hlook & _). by destruct q. }
  apply wf_node_Dir in Hwf as [Hnd Hwf].
  rewrite Forall_forall in IH. rewrite Forall_forall in Hwf.
  cbn [scan_dirs]. unfold here_dirs.
  rewrite elem_of_app, list_elem_of_fmap, elem_of_concat_map. split.
  - intros [(x & -> & Hx)|([x c] & He & Hin)].
    + apply list_elem_of_filter in Hx as [Hign Hx].
      apply list_elem_of_filter in Hx as [Hgit Hx].
      apply elem_of_dirnames in Hx as (c & Hc & Hdir).
      destruct c as [|es']; [done|].
      exists [x], es'. split; [done|]. split; [done|].
      cbn [lookup_node]. rewrite (entry_named_NoDup x es (Dir es')) by done.
      split; [done|]. split; [by intros [= ->]|].
      split; [by apply Is_true_true|apply reached_one].
    + destruct (descends specs root rel (x, c)) eqn:Hdesc;
        [|by apply elem_of_nil in Hin].
      cbn [fst snd] in Hin. apply descends_iff in Hdesc as (Hdir & Hgit & Hv).
      apply (IH _ He) in Hin
        as (q & es' & -> & Hq & Hlook & Hlast & Hign & Hreach);
        [|by apply (Hwf _ He)].
      exists (x :: q), es'. rewrite <- !app_assoc in *. split; [done|].
      split; [done|]. cbn [lookup_node].
      rewrite (entry_named_NoDup x es c) by done. split; [done|].
      split; [by destruct q|]. split; [done|]. by apply reached_cons.
  - intros (q & es' & -> & Hq & Hlook & Hlast & Hign & Hreach).
    destruct q as [|x q]; [done|]. cbn [lookup_node] in Hlook.
    destruct (entry_named x es) as [c|] eqn:Hc; [|done]. cbn in Hlook.
    apply entry_named_elem in Hc.
    destruct q as [|y q].
    + cbn in Hlook. injection Hlook as ->. left. exists x. split; [done|].
      apply list_elem_of_filter. split; [by apply Is_true_true|].
      apply list_elem_of_filter. split; [by intros ->|].
      apply elem_of_dirnames. by exists (Dir es').
    + right. exists (x, c). split; [done|].
      apply reached_cons in Hreach as (Hv & Hgit & Hreach); [|done].
      assert (is_dir_node c = true) as Hdir by (by destruct c).
      assert (descends specs root rel (x, c) = true) as ->
        by (by apply descends_iff).
      cbn [fst snd]. apply (IH _ Hc); [by apply (Hwf _ Hc)|].
      exists (y :: q), es'. rewrite <- !app_assoc in *. done.
Qed.

End ScannerMore.

Section ScannerMoreTheorems.
Context `{Matcher}.
Implicit Types (specs : gmap Path PathSpec) (root : Path).

Lemma last_take_lookup {A} (q : list A) i :
  i < length q → last (take (S i) q) = q !! i.
Proof.
  intros Hi. rewrite last_lookup, length_take.
  replace (Init.Nat.pred (S i `min` length q)) with i by lia.
  apply lookup_take_lt. lia.
Qed.

Lemma reached_no_git specs root q i :
  reached specs root [] q → S i < length q → q !! i ≠ Some ".git".
Proof.
  intros Hreach Hi. destruct (Hreach (S i)) as [_ Hgit]; [lia|lia|].
  rewrite last_take_lookup in Hgit by lia. done.
Qed.

Lemma is_file_ignored_loop_empty file_path parts cur :
  is_file_ignored_loop file_path (∅ : gmap Path PathSpec) parts cur =
  Ok (Fallthrough (cur ++ parts)).
Proof.
  revert cur. induction parts as [|part parts IH]; intros cur.
  - cbn. by rewrite app_nil_r.
  - cbn [is_file_ignored_loop]. unfold file_scope_matches.
    rewrite lookup_empty. cbn. rewrite IH. unfold joinpath.
    by rewrite <- app_assoc.
Qed.

Lemma file_ignored_empty root rel :
  file_ignored (∅ : gmap Path PathSpec) root rel = false.
Proof.
  unfold file_ignored, is_file_ignored. rewrite relative_to_app.
  cbn [mbind result_bind]. rewrite is_file_ignored_loop_empty.
  cbn [mbind result_bind]. unfold file_scope_matches.
  by rewrite !lookup_empty.
Qed.

Lemma dir_verdict_empty root rel :
  dir_verdict (∅ : gmap Path PathSpec) root rel = false.
Proof.
  apply not_true_is_false. rewrite dir_verdict_true.
  intros (k & spec & _ & Hspec & _). by rewrite lookup_empty in Hspec.
Qed.

Lemma nil_no_elem {A} (l : list A) : (∀ x, x ∉ l) → l = [].
Proof. destruct l as [|a l]; [done|]. intros Hno. destruct (Hno a). left. Qed.

(** X5.  The ignored files of the decision pass, exactly: a path is
    listed as an ignored file if and only if it is a file strictly below
    the root that [is_file_ignored] classifies ignored and that the walk
    reaches, every directory between the root and the file being
    classified not ignored and not named [.git]. *)
Theorem decision_pass_files_exactly fs root specs t f d :
  wf_node fs = true → stat fs root = Some t →
  decision_pass fs root specs = Ok (f, d) →
  ∀ p, p ∈ f ↔
    ∃ q content, p = root ++ q ∧ q ≠ [] ∧
      stat fs p = Some (File content) ∧
      is_file_ignored p root specs = Ok true ∧
      reached specs root [] q.
Proof.
  intros Hwf Hstat. assert (wf_node t = true) as Hwft by (by eapply stat_wf).
  rewrite (decision_pass_spec root specs fs t) by done. intros [= <- <-] p.
  rewrite (scan_files_exact root specs t [] Hwft). split.
  - intros (q & content & -> & Hq & Hlook & Hign & Hreach).
    exists q, content. cbn [app] in *. split; [done|]. split; [done|].
    rewrite (stat_app fs root t q) by done. split; [done|].
    rewrite is_file_ignored_total. split; [by f_equal|done].
  - intros (q & content & -> & Hq & Hlook & Hign & Hreach).
    exists q, content. cbn [app]. split; [done|]. split; [done|].
    rewrite (stat_app fs root t q) in Hlook by done. split; [done|].
    rewrite is_file_ignored_total in Hign. by injection Hign.
Qed.

(** X6.  The ignored directories of the decision pass, exactly: a path
    is listed as an ignored directory if and only if it is a directory
    strictly below the root, not named [.git], that
    [is_directory_ignored] classifies ignored and that the walk reaches. *)
Theorem decision_pass_directories_exactly fs root specs t f d :
  wf_node fs = true → stat fs root = Some t →
  decision_pass fs root specs = Ok (f, d) →
  ∀ p, p ∈ d ↔
    ∃ q es, p = root ++ q ∧ q ≠ [] ∧
      stat fs p = Some (Dir es) ∧ last q ≠ Some ".git" ∧
      is_directory_ignored p root specs = Ok true ∧
      reached specs root [] q.
Proof.
  intros Hwf Hstat. assert (wf_node t = true) as Hwft by (by eapply stat_wf).
  rewrite (decision_pass_spec root specs fs t) by done. intros [= <- <-] p.
  rewrite (scan_dirs_exact root specs t [] Hwft). split.
  - intros (q & es & -> & Hq & Hlook & Hlast & Hign & Hreach).
    exists q, es. cbn [app] in *. split; [done|]. split; [done|].
    rewrite (stat_app fs root t q) by done. split; [done|]. split; [done|].
    rewrite is_directory_ignored_verdict. split; [by f_equal|done].
  - intros (q & es & -> & Hq & Hlook & Hlast & Hign & Hreach).
    exists q, es. cbn [app]. split; [done|]. split; [done|].
    rewrite (stat_app fs root t q) in Hlook by done. split; [done|].
    split; [done|].
    rewrite is_directory_ignored_verdict in Hign. by injection Hign.
Qed.

(** X7.  The scan never lists the [.git] directory or anything inside
    one: in a listed path no component below the root that names a
    directory is [.git] (for a listed file, every component but the
    last; for a listed directory, every component). *)
Theorem git_directory_never_listed fs root f d :
  wf_node fs = true →
  find_ignored_files fs root = Ok (f, d) →
  (∀ q i, root ++ q ∈ f → S i < length q → q !! i ≠ Some ".git") ∧
  (∀ q i, root ++ q ∈ d → q !! i ≠ Some ".git").
Proof.
  intros Hwf Hfind.
  destruct (find_ignored_files_spec fs root f d Hwf Hfind)
    as [[-> ->]|(specs & t & _ & Hwft & -> & ->)].
  { split; intros q i Hin; by apply elem_of_nil in Hin. }
  split.
  - intros q i Hin Hi.
    apply (scan_files_exact root specs t [] Hwft) in Hin
      as (q' & content & Heq & _ & _ & _ & Hreach).
    cbn [app] in Heq. apply app_inv_head in Heq as <-.
    by eapply reached_no_git.
  - intros q i Hin.
    apply (scan_dirs_exact root specs t [] Hwft) in Hin
      as (q' & es & Heq & _ & _ & Hlast & _ & Hreach).
    cbn [app] in Heq. apply app_inv_head in Heq as <-.
    destruct (decide (S i < length q)) as [Hi|Hi];
      [by eapply reached_no_git|].
    intros Hgit. apply Hlast. rewrite last_lookup.
    assert (i < length q) by (by eapply lookup_lt_Some).
    replace (Init.Nat.pred (length q)) with i by lia. done.
Qed.

(** X8.  Every path the scan lists lies strictly below the root: the
    directory being cleaned is itself never listed. *)
Theorem root_never_listed fs root f d :
  wf_node fs = true →
  find_ignored_files fs root = Ok (f, d) →
  (root ∉ f ++ d) ∧ (∀ p, p ∈ f ++ d → descendant_of p root).
Proof.
  intros Hwf Hfind.
  assert (∀ p, p ∈ f ++ d → descendant_of p root) as Hbelow.
  { destruct (find_ignored_files_spec fs root f d Hwf Hfind)
      as [[-> ->]|(specs & t & _ & _ & -> & ->)];
      intros p Hp; [by apply elem_of_nil in Hp|].
    apply scan_paths_below in Hp as (q & Hq & ->). by exists q. }
  split; [|done]. intros Hroot.
  destruct (Hbelow _ Hroot) as (rest & Hrest & Heq).
  apply (f_equal length) in Heq. rewrite length_app in Heq.
  destruct rest; [done|]. cbn in Heq. lia.
Qed.

(** X9.  With an empty rule map the decision pass lists nothing, so the
    early return of [find_ignored_files] is a shortcut only: the function
    is the collector followed by the decision pass. *)
Theorem find_ignored_files_is_collect_then_decide fs root :
  wf_node fs = true →
  decision_pass fs root (∅ : gmap Path PathSpec) = Ok ([], []) ∧
  find_ignored_files fs root =
    (gitignore_specs ← collect_all_gitignore_specs fs root;
     decision_pass fs root gitignore_specs).
Proof.
  intros Hwf.
  assert (decision_pass fs root (∅ : gmap Path PathSpec) = Ok ([], [])) as Hempty.
  { destruct (stat fs root) as [t|] eqn:Hstat;
      [|by apply decision_pass_nothing].
    assert (wf_node t = true) as Hwft by (by eapply stat_wf).
    rewrite (decision_pass_spec root ∅ fs t) by done. do 2 f_equal.
    - apply nil_no_elem. intros p Hp.
      apply (scan_files_exact root ∅ t [] Hwft) in Hp
        as (q & content & _ & _ & _ & Hign & _).
      by rewrite file_ignored_empty in Hign.
    - apply nil_no_elem. intros p Hp.
      apply (scan_dirs_exact root ∅ t [] Hwft) in Hp
        as (q & es & _ & _ & _ & _ & Hign & _).
      by rewrite dir_verdict_empty in Hign. }
  split; [done|]. unfold find_ignored_files.
  destruct (collect_all_gitignore_specs fs root) as [specs|e];
    cbn [mbind result_bind]; [|done].
  destruct (decide (size specs = 0)) as [Hsize|]; [|done].
  apply map_size_empty_iff in Hsize as ->. by rewrite Hempty.
Qed.

End ScannerMoreTheorems.

(* ===================================================================== *)
(** ** Properties of the rule collector *)
(* ===================================================================== *)

Section CollectorFacts.
Context `{Matcher}.
Variable fs : FS.
Variable root : Path.

Lemma stat_child top es x :
  stat fs top = Some (Dir es) → stat fs (top ++ [x]) = entry_named x es.
Proof.
  intros Htop. rewrite (stat_app fs top (Dir es) [x]) by done.
  cbn [lookup_node]. by destruct (entry_named x es).
Qed.

Lemma load_gitignore_patterns_listing top es :
  stat fs top = Some (Dir es) →
  load_gitignore_patterns fs top =
  match entry_named ".gitignore" es with
  | None => Ok None
  | Some c => spec ← load_node c; mret (Some spec)
  end.
Proof.
  intros Htop.
  unfold load_gitignore_patterns, exists_, readlines, joinpath, load_node.
  rewrite (stat_child top es) by done.
  destruct (entry_named ".gitignore" es) as [[content|es']|]; [|done|done].
  cbn [negb read_node]. destruct (read_text content) as [lines|e]; [|done].
  cbn [mbind result_bind]. by destruct (from_lines lines).
Qed.

Lemma collect_body_listing (top : Path) (es : list (string * node))
    (directories files : list string) (m : gmap Path PathSpec) :
  stat fs top = Some (Dir es) →
  collect_body fs top directories files m =
  match entry_named ".gitignore" es with
  | None => Ok (m, directories)
  | Some c =>
      match load_node c with
      | Ok spec => Ok (<[top := spec]> m, directories)
      | Raise e => Raise e
      end
  end.
Proof.
  intros Htop. unfold collect_body.
  rewrite (load_gitignore_patterns_listing top es) by done.
  destruct (entry_named ".gitignore" es) as [c|]; [|done].
  by destruct (load_node c).
Qed.

Lemma rule_file_in_cons es x q :
  rule_file_in (Dir es) (x :: q) =
  match entry_named x es with
  | Some c => rule_file_in c q
  | None => None
  end.
Proof.
  unfold rule_file_in. cbn [lookup_node]. by destruct (entry_named x es).
Qed.

Lemma child_key_ne_top (top : Path) x q : top ≠ top ++ x :: q.
Proof.
  intros Heq. apply (f_equal length) in Heq. rewrite length_app in Heq.
  cbn in Heq. lia.
Qed.

(** The descent of the collector through the entries [l] of the
    directory at [rel]. *)
Lemma walk_entries_collect rel kept (l : list (string * node)) :
  NoDup l.*1 →
  Forall (λ e, ∀ rel' m,
            stat fs (root ++ rel') = Some e.2 → wf_node e.2 = true →
            match walk (collect_body fs) (root ++ rel') e.2 m with
            | Ok m' =>
                (∀ p, ¬ below (root ++ rel') p → m' !! p = m !! p) ∧
                (∀ q, m' !! (root ++ rel' ++ q) =
                      match rule_file_in e.2 q with
                      | Some spec => Some spec
                      | None => m !! (root ++ rel' ++ q)
                      end) ∧
                ¬ has_unreadable_rules e.2
            | Raise e' => ∃ q, unreadable_rules_at e.2 q e'
            end) l →
  Forall (λ e, wf_node e.2 = true) l →
  Forall (λ e, stat fs (root ++ rel ++ [e.1]) = Some e.2) l →
  Forall (λ e, is_dir_node e.2 = true → e.1 ∈ kept) l →
  ∀ m,
    match walk_entries (collect_body fs) (root ++ rel) kept l m with
    | Ok m' =>
        (∀ p, (∀ x c q, (x, c) ∈ l → p ≠ root ++ rel ++ x :: q) →
              m' !! p = m !! p) ∧
        (∀ x c q, (x, c) ∈ l →
           m' !! (root ++ rel ++ x :: q) =
           match rule_file_in c q with
           | Some spec => Some spec
           | None => m !! (root ++ rel ++ x :: q)
           end) ∧
        (∀ x c, (x, c) ∈ l → ¬ has_unreadable_rules c)
    | Raise e' => ∃ x c q, (x, c) ∈ l ∧ unreadable_rules_at c q e'
    end.
Proof.
  induction l as [|[x c] l IHl]; intros Hnd HIH Hwf Hstat Hkept m.
  { cbn. split; [done|].
    split; [by intros ? ? ? ?%elem_of_nil|by intros ? ? ?%elem_of_nil]. }
  rewrite fmap_cons in Hnd. apply NoDup_cons in Hnd as [Hx Hnd].
  apply Forall_cons in HIH as [HIHc HIH].
  apply Forall_cons in Hwf as [Hwfc Hwf].
  apply Forall_cons in Hstat as [Hstatc Hstat].
  apply Forall_cons in Hkept as [Hkc Hkept].
  cbn [fst snd] in *.
  assert (∀ y c' q q', (y, c') ∈ l →
            root ++ rel ++ x :: q ≠ root ++ rel ++ y :: q') as Hother.
  { intros y c' q q' Hin Heq. apply app_inv_head, app_inv_head in Heq.
    injection Heq as -> _. apply Hx. apply list_elem_of_fmap. by exists (y, c'). }
  cbn [walk_entries].
  destruct (is_dir_node c) eqn:Hdir.
  - rewrite bool_decide_eq_true_2 by auto. cbn [andb].
    unfold joinpath. rewrite <- (app_assoc root rel [x]).
    specialize (HIHc (rel ++ [x]) m Hstatc Hwfc).
    destruct (walk (collect_body fs) (root ++ rel ++ [x]) c m) as [m2|e2].
    2:{ destruct HIHc as [q Hbad]. cbn. exists x, c, q. split; [left|done]. }
    destruct HIHc as (Hframe & Hchar & Hgood). cbn [mbind result_bind].
    specialize (IHl Hnd HIH Hwf Hstat Hkept m2).
    destruct (walk_entries (collect_body fs) (root ++ rel) kept l m2) as [m'|e'].
    2:{ destruct IHl as (y & c' & q & Hin & Hbad).
        exists y, c', q. split; [by right|done]. }
    destruct IHl as (Hframe' & Hchar' & Hgood').
    assert (∀ p, (∀ q, p ≠ root ++ rel ++ x :: q) → m2 !! p = m !! p) as Hframe2.
    { intros p Hp. apply Hframe. intros [q ->]. apply (Hp q).
      by rewrite <- !app_assoc. }
    split; [|split].
    + intros p Hp. rewrite Hframe'.
      * apply Hframe2. intros q. apply (Hp x c q). left.
      * intros y c' q Hin. apply (Hp y c' q). by right.
    + intros y c' q Hin. apply elem_of_cons in Hin as [[= -> ->]|Hin].
      * rewrite Hframe' by (intros y c'' q' Hin'; by eapply Hother).
        specialize (Hchar q). rewrite <- !app_assoc in Hchar. exact Hchar.
      * rewrite (Hchar' y c' q Hin).
        rewrite Hframe2; [done|]. intros q' Heq. symmetry in Heq.
        by eapply Hother.
    + intros y c' Hin. apply elem_of_cons in Hin as [[= -> ->]|Hin]; eauto.
  - cbn [andb mbind result_bind mret result_ret].
    specialize (IHl Hnd HIH Hwf Hstat Hkept m).
    destruct (walk_entries (collect_body fs) (root ++ rel) kept l m) as [m'|e'].
    2:{ destruct IHl as (y & c' & q & Hin & Hbad).
        exists y, c', q. split; [by right|done]. }
    destruct IHl as (Hframe' & Hchar' & Hgood').
    split; [|split].
    + intros p Hp. apply Hframe'. intros y c' q Hin. apply (Hp y c' q). by right.
    + intros y c' q Hin. apply elem_of_cons in Hin as [[= -> ->]|Hin].
      * rewrite Hframe' by (intros y c'' q' Hin'; by eapply Hother).
        destruct c as [content|]; [|done]. unfold rule_file_in.
        by destruct q.
      * by apply Hchar'.
    + intros y c' Hin. apply elem_of_cons in Hin as [[= -> ->]|Hin]; eauto.
      destruct c as [content|]; [|done].
      intros (q & e & es & c0 & Hlook & _). by destruct q.
Qed.

(** The walk of the collector from the directory at [rel]: it leaves the
    keys outside that directory alone, maps every directory of the
    subtree with a rule file to its matcher, and raises exactly when a
    [.gitignore] of the subtree cannot be read, with the exception of
    reading it. *)
Lemma walk_collect n :
  ∀ rel m,
    stat fs (root ++ rel) = Some n → wf_node n = true →
    match walk (collect_body fs) (root ++ rel) n m with
    | Ok m' =>
        (∀ p, ¬ below (root ++ rel) p → m' !! p = m !! p) ∧
        (∀ q, m' !! (root ++ rel ++ q) =
              match rule_file_in n q with
              | Some spec => Some spec
              | None => m !! (root ++ rel ++ q)
              end) ∧
        ¬ has_unreadable_rules n
    | Raise e' => ∃ q, unreadable_rules_at n q e'
    end.
Proof.
  induction n as [content|es IH] using node_ind; intros rel m Hstat Hwf.
  { cbn. split; [done|]. split.
    - intros q. unfold rule_file_in. by destruct q.
    - intros (q & e & es & c & Hlook & _). by destruct q. }
  apply wf_node_Dir in Hwf as [Hnd Hwf].
  assert (Forall (λ e, stat fs (root ++ rel ++ [e.1]) = Some e.2) es) as Hchildren.
  { apply Forall_forall. intros [x c] Hin. cbn [fst snd].
    rewrite app_assoc, (stat_child (root ++ rel) es) by done.
    by apply entry_named_NoDup. }
  assert (Forall (λ e, is_dir_node e.2 = true → e.1 ∈ dirnames es) es) as Hkept.
  { apply Forall_forall. intros [x c] Hin Hdir. cbn [fst snd] in *.
    apply elem_of_dirnames. by exists c. }
  pose proof (walk_entries_collect rel (dirnames es) es Hnd IH Hwf Hchildren Hkept)
    as Hentries.
  rewrite walk_Dir.
  rewrite (collect_body_listing (root ++ rel) es) by done.
  assert (∀ m1 : gmap Path PathSpec,
            (∀ p, ¬ below (root ++ rel) p → m1 !! p = m !! p) →
            (∀ x q, m1 !! (root ++ rel ++ x :: q) = m !! (root ++ rel ++ x :: q)) →
            m1 !! (root ++ rel) =
              match rule_file_in (Dir es) [] with
              | Some spec => Some spec
              | None => m !! (root ++ rel)
              end →
            (∀ c e, entry_named ".gitignore" es = Some c →
                    load_node c ≠ Raise e) →
            match walk_entries (collect_body fs) (root ++ rel) (dirnames es) es m1 with
            | Ok m' =>
                (∀ p, ¬ below (root ++ rel) p → m' !! p = m !! p) ∧
                (∀ q, m' !! (root ++ rel ++ q) =
                      match rule_file_in (Dir es) q with
                      | Some spec => Some spec
                      | None => m !! (root ++ rel ++ q)
                      end) ∧
                ¬ has_unreadable_rules (Dir es)
            | Raise e' => ∃ q, unreadable_rules_at (Dir es) q e'
            end) as Hfinish.
  { intros m1 Hout Hin Htop Hrules. specialize (Hentries m1).
    destruct (walk_entries (collect_body fs) (root ++ rel) (dirnames es) es m1)
      as [m'|e'].
    2:{ destruct Hentries as (x & c & q & Hc & es0 & c1 & Hlook & Hbad).
        exists (x :: q), es0, c1. cbn [lookup_node].
        by rewrite (entry_named_NoDup x es c). }
    destruct Hentries as (Hframe & Hchar & Hgood). split; [|split].
    - intros p Hp. rewrite Hframe; [by apply Hout|].
      intros x c q _ ->. apply Hp. exists (x :: q). by rewrite <- app_assoc.
    - intros [|x q].
      + rewrite app_nil_r. rewrite Hframe; [done|].
        intros x c q _ Heq. rewrite app_assoc in Heq.
        by apply child_key_ne_top in Heq.
      + rewrite rule_file_in_cons.
        destruct (entry_named x es) as [c|] eqn:Hc.
        * apply entry_named_elem in Hc. rewrite (Hchar x c q Hc).
          by rewrite Hin.
        * rewrite Hframe; [by apply Hin|].
          intros y c q' Hy Heq. apply app_inv_head, app_inv_head in Heq.
          injection Heq as -> _.
          by rewrite (entry_named_NoDup y es c) in Hc.
    - intros (q & e & es0 & c1 & Hlook & Hent & Hread). destruct q as [|x q].
      + cbn in Hlook. injection Hlook as <-. by eapply Hrules.
      + cbn [lookup_node] in Hlook.
        destruct (entry_named x es) as [c|] eqn:Hc; [|done]. cbn in Hlook.
        apply entry_named_elem in Hc. apply (Hgood x c Hc).
        by exists q, e, es0, c1. }
  unfold rule_file_in in Hfinish. cbn [lookup_node] in Hfinish.
  destruct (entry_named ".gitignore" es) as [c|] eqn:Hrules;
    [destruct (load_node c) as [spec|e] eqn:Hread|].
  - cbn [mbind result_bind mret result_ret fst snd]. apply Hfinish.
    + intros p Hp. apply lookup_insert_ne. intros <-. apply Hp.
      exists []. by rewrite app_nil_r.
    + intros x q. apply lookup_insert_ne. rewrite app_assoc.
      apply child_key_ne_top.
    + by rewrite lookup_insert_eq.
    + intros c' e [= <-]. by rewrite Hread.
  - cbn. by exists [], es, c.
  - cbn [mbind result_bind mret result_ret fst snd]. by apply Hfinish.
Qed.

End CollectorFacts.

Section CollectorTheorems.
Context `{Matcher}.

Lemma collect_all_gitignore_specs_walk fs root t :
  wf_node fs = true → stat fs root = Some t →
  match collect_all_gitignore_specs fs root with
  | Ok m =>
      (∀ p, ¬ below root p → m !! p = None) ∧
      (∀ q, m !! (root ++ q) = rule_file_in t q) ∧
      ¬ has_unreadable_rules t
  | Raise e => ∃ q, unreadable_rules_at t q e
  end.
Proof.
  intros Hwf Hstat. assert (wf_node t = true) as Hwft by (by eapply stat_wf).
  unfold collect_all_gitignore_specs, os_walk. rewrite Hstat.
  pose proof (walk_collect fs root t [] ∅) as Hwalk.
  rewrite app_nil_r in Hwalk. specialize (Hwalk Hstat Hwft).
  destruct (walk (collect_body fs) root t ∅) as [m|e]; [|done].
  destruct Hwalk as (Hframe & Hchar & Hgood). split; [|split; [|done]].
  - intros p Hp. by rewrite Hframe, lookup_empty.
  - intros q. specialize (Hchar q). cbn [app] in Hchar. rewrite Hchar.
    rewrite lookup_empty. by destruct (rule_file_in t q).
Qed.

Lemma load_node_Ok c spec :
  load_node c = Ok spec ↔
  ∃ lines, c = File (Text lines) ∧ from_lines lines = Some spec.
Proof.
  unfold load_node. split.
  - destruct c as [[lines| |error]|es]; try done. cbn.
    destruct (from_lines lines) as [spec'|] eqn:Hlines; [|done].
    intros [= <-]. by exists lines.
  - intros (lines & -> & Hlines). cbn. by rewrite Hlines.
Qed.

Lemma rule_file_in_stat fs root t q spec :
  stat fs root = Some t →
  rule_file_in t q = Some spec ↔
  ∃ lines, is_dir fs (root ++ q) = true ∧
    stat fs (joinpath (root ++ q) ".gitignore") = Some (File (Text lines)) ∧
    from_lines lines = Some spec.
Proof.
  intros Hstat. unfold rule_file_in, is_dir, joinpath.
  rewrite (stat_app fs root t q) by done. split.
  - destruct (lookup_node t q) as [[content|es]|] eqn:Hq; [done| |done].
    rewrite (stat_child fs (root ++ q) es)
      by (by rewrite (stat_app fs root t q)).
    destruct (entry_named ".gitignore" es) as [c|]; [|done].
    destruct (load_node c) as [spec'|e] eqn:Hload; [|done].
    apply load_node_Ok in Hload as (lines & -> & Hlines).
    intros [= <-]. by exists lines.
  - intros (lines & Hdir & Hrules & Hlines).
    destruct (lookup_node t q) as [[content|es]|] eqn:Hq; [done| |done].
    rewrite (stat_child fs (root ++ q) es) in Hrules
      by (by rewrite (stat_app fs root t q)).
    rewrite Hrules.
    assert (load_node (File (Text lines)) = Ok spec) as ->; [|done].
    apply load_node_Ok. by exists lines.
Qed.



(** X10.  The rule map of the collector, when it returns, exactly: its
    keys are the directories at or below the root that hold a
    [.gitignore] file, each mapped to the matcher compiled from the
    lines of that file; a directory without one has no entry.  Ignored
    directories and [.git] are not left out. *)
Theorem collector_rule_map_exactly fs root t m :
  wf_node fs = true → stat fs root = Some t →
  collect_all_gitignore_specs fs root = Ok m →
  ∀ p spec, m !! p = Some spec ↔
    ∃ lines, below root p ∧ is_dir fs p = true ∧
      stat fs (joinpath p ".gitignore") = Some (File (Text lines)) ∧
      from_lines lines = Some spec.
Proof.
  intros Hwf Hstat Hcollect.
  pose proof (collect_all_gitignore_specs_walk fs root t Hwf Hstat) as Hwalk.
  rewrite Hcollect in Hwalk. destruct Hwalk as (Hframe & Hchar & _).
  intros p spec. split.
  - intros Hp. destruct (decide (below root p)) as [[q ->]|Hnot].
    + rewrite Hchar in Hp.
      apply (rule_file_in_stat fs root t q spec Hstat) in Hp
        as (lines & ? & ? & ?).
      exists lines. split; [by exists q|done].
    + by rewrite Hframe in Hp.
  - intros (lines & [q ->] & Hdir & Hrules & Hlines). rewrite Hchar.
    apply (rule_file_in_stat fs root t q _ Hstat). by exists lines.
Qed.


End CollectorTheorems.

(* ===================================================================== *)
(** ** Further properties of the prompt, the report and the deletion *)
(* ===================================================================== *)

Section PromptFacts.
Context `{Matcher} `{Platform}.

(** One round of the loop of [confirm_deletion]. *)
Lemma confirm_deletion_rounds_step pending w :
  confirm_deletion_rounds pending w =
  match stdin w with
  | [] =>
      ({| fs := fs w; stdin := [];
          trace := trace w ++ [EStdout confirm_prompt] |}, Raise EOFError)
  | line :: lines =>
      if bool_decide (lower (strip line) ∈ ["yes"; "y"]) then
        ({| fs := fs w; stdin := lines;
            trace := trace w ++ [EStdout confirm_prompt] |}, Ok true)
      else if bool_decide (lower (strip line) ∈ ["no"; "n"]) then
        ({| fs := fs w; stdin := lines;
            trace := trace w ++ [EStdout confirm_prompt] |}, Ok false)
      else
        match pending with
        | _ :: pending' =>
            confirm_deletion_rounds pending'
              {| fs := fs w; stdin := lines;
                 trace := trace w ++
                          [EStdout confirm_prompt; EStdout confirm_reminder] |}
        | [] =>
            ({| fs := fs w; stdin := lines;
                trace := trace w ++
                         [EStdout confirm_prompt; EStdout confirm_reminder] |},
             Raise EOFError)
        end
  end.
Proof.
  assert (Hround : ∀ k : M bool, (response ← input confirm_prompt;
      if bool_decide (lower (strip response) ∈ ["yes"; "y"]) then mret true
      else if bool_decide (lower (strip response) ∈ ["no"; "n"]) then mret false
      else print confirm_reminder;; k) w =
    match stdin w with
    | [] => ({| fs := fs w; stdin := [];
                trace := trace w ++ [EStdout confirm_prompt] |}, Raise EOFError)
    | line :: lines =>
        if bool_decide (lower (strip line) ∈ ["yes"; "y"]) then
          ({| fs := fs w; stdin := lines;
              trace := trace w ++ [EStdout confirm_prompt] |}, Ok true)
        else if bool_decide (lower (strip line) ∈ ["no"; "n"]) then
          ({| fs := fs w; stdin := lines;
              trace := trace w ++ [EStdout confirm_prompt] |}, Ok false)
        else k {| fs := fs w; stdin := lines;
                  trace := trace w ++
                    [EStdout confirm_prompt; EStdout confirm_reminder] |}
    end).
  { intros k. unfold mbind at 1. unfold M_bind at 1. unfold input.
    destruct (stdin w) as [|line lines]; cbn [tail]; [done|].
    destruct (bool_decide (lower (strip line) ∈ ["yes"; "y"])); [done|].
    destruct (bool_decide (lower (strip line) ∈ ["no"; "n"])); [done|].
    unfold mbind, M_bind, print, emit. cbn [fs stdin trace].
    by rewrite <- app_assoc. }
  destruct pending as [|l pending]; cbn [confirm_deletion_rounds];
    fold confirm_prompt; fold confirm_reminder; rewrite Hround;
    destruct (stdin w) as [|line lines]; try done.
Qed.

Lemma is_answer_false line :
  is_answer line = false →
  bool_decide (lower (strip line) ∈ ["yes"; "y"]) = false ∧
  bool_decide (lower (strip line) ∈ ["no"; "n"]) = false.
Proof. unfold is_answer. by intros ?%orb_false_iff. Qed.

Lemma confirm_deletion_rounds_answer junk a rest :
  Forall (λ line, is_answer line = false) junk → is_answer a = true →
  ∀ w, stdin w = junk ++ a :: rest →
    confirm_deletion_rounds (junk ++ a :: rest) w =
    ({| fs := fs w; stdin := rest;
        trace := trace w ++ reprompts junk ++ [EStdout confirm_prompt] |},
     Ok (bool_decide (lower (strip a) ∈ ["yes"; "y"]))).
Proof.
  intros Hjunk Ha. induction Hjunk as [|line junk Hline Hjunk IH]; intros w Hw.
  - rewrite confirm_deletion_rounds_step, Hw. cbn [app].
    destruct (bool_decide (lower (strip a) ∈ ["yes"; "y"])) eqn:Hyes; [done|].
    unfold is_answer in Ha. rewrite Hyes in Ha. cbn in Ha. by rewrite Ha.
  - rewrite confirm_deletion_rounds_step, Hw. cbn [app].
    destruct (is_answer_false line Hline) as [-> ->].
    rewrite IH by done. cbn [fs stdin trace]. unfold reprompts.
    cbn. by rewrite <- !app_assoc.
Qed.

Lemma confirm_deletion_rounds_eof lines :
  Forall (λ line, is_answer line = false) lines →
  ∀ w, stdin w = lines →
    confirm_deletion_rounds lines w =
    ({| fs := fs w; stdin := [];
        trace := trace w ++ reprompts lines ++ [EStdout confirm_prompt] |},
     Raise EOFError).
Proof.
  induction 1 as [|line lines Hline Hlines IH]; intros w Hw.
  - rewrite confirm_deletion_rounds_step, Hw. done.
  - rewrite confirm_deletion_rounds_step, Hw.
    destruct (is_answer_false line Hline) as [-> ->].
    rewrite IH by done. cbn [fs stdin trace]. unfold reprompts.
    cbn. by rewrite <- !app_assoc.
Qed.

(** Standard input either has no answer or splits at its first one. *)
Lemma first_answer_split (lines : list string) :
  Forall (λ line, is_answer line = false) lines ∨
  ∃ junk a rest, lines = junk ++ a :: rest ∧
    Forall (λ line, is_answer line = false) junk ∧ is_answer a = true.
Proof.
  induction lines as [|line lines IH]; [by left|].
  destruct (is_answer line) eqn:Hline.
  - right. by exists [], line, lines.
  - destruct IH as [Hnone|(junk & a & rest & -> & Hjunk & Ha)].
    + left. by constructor.
    + right. exists (line :: junk), a, rest. split; [done|].
      split; [by constructor|done].
Qed.

Lemma confirm_deletion_answer w junk a rest :
  stdin w = junk ++ a :: rest →
  Forall (λ line, is_answer line = false) junk → is_answer a = true →
  confirm_deletion w =
  ({| fs := fs w; stdin := rest;
      trace := trace w ++ reprompts junk ++ [EStdout confirm_prompt] |},
   Ok (bool_decide (lower (strip a) ∈ ["yes"; "y"]))).
Proof.
  intros Hw Hjunk Ha. unfold confirm_deletion.
  unfold mbind, M_bind, get_world. rewrite Hw.
  by apply confirm_deletion_rounds_answer.
Qed.

Lemma confirm_deletion_eof w :
  Forall (λ line, is_answer line = false) (stdin w) →
  confirm_deletion w =
  ({| fs := fs w; stdin := [];
      trace := trace w ++ reprompts (stdin w) ++ [EStdout confirm_prompt] |},
   Raise EOFError).
Proof.
  intros Hnone. unfold confirm_deletion. unfold mbind, M_bind, get_world.
  by apply confirm_deletion_rounds_eof.
Qed.

(** X12.  [confirm_deletion] reads standard input up to the first line
    that, stripped and lowered, is yes, y, no or n, and returns whether
    it is yes or y; each line before it costs one reminder, the lines
    after it are left unread.  Without such a line it reads everything
    and raises [EOFError]. *)
Theorem confirm_deletion_first_answer w :
  (∀ junk a rest,
     stdin w = junk ++ a :: rest →
     Forall (λ line, is_answer line = false) junk → is_answer a = true →
     confirm_deletion w =
     ({| fs := fs w; stdin := rest;
         trace := trace w ++ reprompts junk ++ [EStdout confirm_prompt] |},
      Ok (bool_decide (lower (strip a) ∈ ["yes"; "y"])))) ∧
  (Forall (λ line, is_answer line = false) (stdin w) →
   confirm_deletion w =
   ({| fs := fs w; stdin := [];
       trace := trace w ++ reprompts (stdin w) ++ [EStdout confirm_prompt] |},
    Raise EOFError)).
Proof.
  split; [intros junk a rest; apply confirm_deletion_answer|].
  apply confirm_deletion_eof.
Qed.

End PromptFacts.

Section ReportFacts.
Context `{Matcher} `{Platform}.









End ReportFacts.

Section DeletionMore.
Context `{Matcher} `{Platform}.

Lemma for_each_app {A B} (f : B → A → M B) (l1 l2 : list A) :
  ∀ n w, for_each f n (l1 ++ l2) w =
    match for_each f n l1 w with
    | (w1, Ok n1) => for_each f n1 l2 w1
    | (w1, Raise e) => (w1, Raise e)
    end.
Proof.
  induction l1 as [|x l1 IH]; intros n w; [done|].
  cbn [for_each app]. unfold mbind, M_bind.
  destruct (f n x w) as [w1 [n1|e]]; [apply IH|done].
Qed.


(** X14.  A real run of [delete_items] deletes files first: its events
    split into those of the file loop, where [Path.unlink] is called on
    the given files in their order and [shutil.rmtree] not at all, and
    after them those of the directory loop, where only [shutil.rmtree]
    is called. *)
Theorem delete_items_files_before_directories files dirs root w :
  Forall (below root) files → Forall (below root) dirs →
  ∃ w' counts Tf Td,
    delete_items files dirs root false w = (w', Ok counts) ∧
    trace w' = trace w ++ Tf ++ Td ∧
    unlink_calls Tf = files ∧ rmtree_calls Tf = [] ∧
    unlink_calls Td = [] ∧
    rmtree_calls Td = sorted_key_reverse (λ p : Path, length p) dirs.
Proof.
  intros Hfiles Hdirs.
  destruct (delete_items_attempts root files dirs w Hfiles Hdirs)
    as (fs' & ferrs & derrs & Hflen & Hdlen & Hrun).
  rewrite Hrun. do 4 eexists. split; [done|]. split; [done|].
  destruct (unlink_attempts (file_done_line root) (file_error_line root)
              files ferrs Hflen) as (Hf1 & Hf2 & _).
  destruct (rmtree_attempts (dir_done_line root) (dir_error_line root)
              (sorted_key_reverse (λ p : Path, length p) dirs) derrs)
    as (Hd1 & Hd2 & _).
  { rewrite Hdlen. unfold sorted_key_reverse. by rewrite length_sorted. }
  done.
Qed.

(** X15.  [delete_items] stops at the first file that is not below the
    root: [relative_to] raises [ValueError], which no handler of the
    loop catches.  The files before it have been attempted, that file
    and everything after it, the directories included, have not. *)
Theorem delete_items_outside_root_aborts before p after dirs root w :
  Forall (below root) before → ¬ below root p →
  ∃ w' msg T,
    delete_items (before ++ p :: after) dirs root false w =
      (w', Raise (ValueError msg)) ∧
    trace w' = trace w ++ T ∧
    unlink_calls T = before ∧ rmtree_calls T = [].
Proof.
  intros Hbefore Hp. unfold delete_items.
  destruct (for_each_attempts root (delete_file root false) unlink EUnlink
              (file_done_line root) (file_error_line root)
              (delete_file_attempt root) before Hbefore 0 w)
    as (fs1 & errs & Hlen & Hrun).
  destruct (relative_to_not_below root p Hp) as [msg Hmsg].
  unfold mbind at 1. unfold M_bind at 1. rewrite for_each_app, Hrun.
  cbn [for_each]. unfold mbind at 1. unfold M_bind at 1.
  unfold delete_file. unfold mbind at 1. unfold M_bind at 1.
  unfold lift. rewrite Hmsg.
  do 3 eexists. split; [done|]. split; [done|].
  destruct (unlink_attempts (file_done_line root) (file_error_line root)
              before errs Hlen) as (Hf1 & Hf2 & _).
  done.
Qed.


End DeletionMore.

Section EntryPointMore.
Context `{Matcher} `{Platform}.

Lemma no_removal_calls T :
  count_events is_removal T = 0 → unlink_calls T = [] ∧ rmtree_calls T = [].
Proof.
  induction T as [|e T IH]; [done|].
  change (e :: T) with ([e] ++ T).
  rewrite count_events_app, count_events_singleton, unlink_calls_app,
    rmtree_calls_app.
  intros Hcount. destruct e; cbn in Hcount; try lia; by apply IH.
Qed.

Lemma quiet_step_calls w w' :
  quiet_step w w' →
  fs w' = fs w ∧
  ∃ T, trace w' = trace w ++ T ∧ unlink_calls T = [] ∧ rmtree_calls T = [].
Proof.
  intros [Hfs (T & HT & Hcount)]. split; [done|]. exists T. split; [done|].
  by apply no_removal_calls.
Qed.

(** The prompt says yes only when the first answer on standard input is
    one. *)
Lemma wp_confirm_deletion_yes (post : world → result bool → Prop) w :
  (∀ w' r, quiet_step w w' →
     (r = Ok true →
      ∃ junk a rest, stdin w = junk ++ a :: rest ∧
        Forall (λ line, is_answer line = false) junk ∧
        lower (strip a) ∈ ["yes"; "y"]) →
     post w' r) →
  wp confirm_deletion post w.
Proof.
  intros Hpost.
  assert (quiet_step w (confirm_deletion w).1) as Hquiet.
  { by apply (wp_confirm_deletion (λ w' _, quiet_step w w')). }
  unfold wp. apply Hpost; [done|]. intros Hr.
  destruct (first_answer_split (stdin w))
    as [Hnone|(junk & a & rest & Hw & Hjunk & Ha)].
  - by rewrite (confirm_deletion_eof w Hnone) in Hr.
  - rewrite (confirm_deletion_answer w junk a rest Hw Hjunk Ha) in Hr.
    cbn in Hr. injection Hr as Hr. apply bool_decide_eq_true in Hr.
    by exists junk, a, rest.
Qed.

Lemma wp_delete_items_calls f d root
    (post : world → result (nat * nat) → Prop) w :
  Forall (below root) f → Forall (below root) d →
  (∀ w' counts T,
     trace w' = trace w ++ T → unlink_calls T = f →
     rmtree_calls T = sorted_key_reverse (λ p : Path, length p) d →
     post w' (Ok counts)) →
  wp (delete_items f d root false) post w.
Proof.
  intros Hf Hd Hpost.
  destruct (delete_items_attempts root f d w Hf Hd)
    as (fs' & ferrs & derrs & Hflen & Hdlen & Hrun).
  unfold wp. rewrite Hrun. eapply Hpost; [done| |].
  - rewrite unlink_calls_app.
    destruct (unlink_attempts (file_done_line root) (file_error_line root)
                f ferrs Hflen) as (-> & _).
    destruct (rmtree_attempts (dir_done_line root) (dir_error_line root)
                (sorted_key_reverse (λ p : Path, length p) d) derrs)
      as (_ & -> & _); [|by rewrite app_nil_r].
    rewrite Hdlen. unfold sorted_key_reverse. by rewrite length_sorted.
  - rewrite rmtree_calls_app.
    destruct (unlink_attempts (file_done_line root) (file_error_line root)
                f ferrs Hflen) as (_ & -> & _).
    destruct (rmtree_attempts (dir_done_line root) (dir_error_line root)
                (sorted_key_reverse (λ p : Path, length p) d) derrs)
      as (-> & _); [|done].
    rewrite Hdlen. unfold sorted_key_reverse. by rewrite length_sorted.
Qed.

(** A run on a parsed command line: no removal call and the filesystem
    as it was, or the removal of the findings, confirmed. *)
Lemma main_body_removals args w :
  wf_node (fs w) = true →
  wp (main_body args) (λ (w' : world) (r : result Z),
    ∃ T, trace w' = trace w ++ T ∧
    ((fs w' = fs w ∧ unlink_calls T = [] ∧ rmtree_calls T = []) ∨
     (dry_run args = false ∧
      (yes args = true ∨
       ∃ junk a rest, stdin w = junk ++ a :: rest ∧
         Forall (λ line, is_answer line = false) junk ∧
         lower (strip a) ∈ ["yes"; "y"]) ∧
      ∃ f d,
        find_ignored_files (fs w) (resolve (directory args)) = Ok (f, d) ∧
        unlink_calls T = f ∧
        rmtree_calls T = sorted_key_reverse (λ p : Path, length p) d ∧
        r = Ok 0%Z))) w.
Proof.
  intros Hwf.
  set (post := λ (w' : world) (r : result Z),
    ∃ T, trace w' = trace w ++ T ∧
    ((fs w' = fs w ∧ unlink_calls T = [] ∧ rmtree_calls T = []) ∨
     (dry_run args = false ∧
      (yes args = true ∨
       ∃ junk a rest, stdin w = junk ++ a :: rest ∧
         Forall (λ line, is_answer line = false) junk ∧
         lower (strip a) ∈ ["yes"; "y"]) ∧
      ∃ f d,
        find_ignored_files (fs w) (resolve (directory args)) = Ok (f, d) ∧
        unlink_calls T = f ∧
        rmtree_calls T = sorted_key_reverse (λ p : Path, length p) d ∧
        r = Ok 0%Z))).
  assert (∀ w' r, quiet_step w w' → post w' r) as Hquiet.
  { intros w' r Hq. destruct (quiet_step_calls w w' Hq) as (Hfs & T & HT & Hu & Hr).
    exists T. split; [done|]. by left. }
  unfold main_body. set (root := resolve (directory args)) in *.
  apply wp_bind, wp_get_world.
  destruct (exists_ (fs w) root); cbn [negb];
    [|apply wp_bind, wp_emit, wp_ret, Hquiet; by apply quiet_step_emit].
  destruct (is_dir (fs w) root); cbn [negb];
    [|apply wp_bind, wp_emit, wp_ret, Hquiet; by apply quiet_step_emit].
  destruct (exists_ (fs w) (joinpath root ".gitignore")); cbn [negb];
    [|apply wp_bind, wp_emit, wp_ret, Hquiet; by apply quiet_step_emit].
  apply wp_bind, wp_emit, wp_bind, wp_scan. cbn [fs stdin trace].
  set (w1 := World (fs w) (stdin w) ((trace w ++ [_]) ++ [EScan root])).
  assert (quiet_step w w1) as Hq1.
  { split; [done|].
    exists ([EStdout ("Scanning directory: " +:+ str root)] ++ [EScan root]).
    split; [unfold w1; cbn [trace]; by rewrite <- app_assoc|].
    by rewrite count_events_app, !count_events_singleton. }
  destruct (find_ignored_files (fs w) root) as [[f d]|e] eqn:Hfind;
    [|by apply Hquiet].
  destruct (find_ignored_files_below _ _ _ _ Hwf Hfind) as [Hf Hd].
  cbn [fst snd].
  apply wp_bind, prints_only_display; [done|done|]. intros w2 Hq2 Hs2.
  assert (quiet_step w w2) as Hq02 by (by eapply quiet_step_trans).
  assert (∀ w3, quiet_step w w3 →
            (yes args = true ∨
             ∃ junk a rest, stdin w = junk ++ a :: rest ∧
               Forall (λ line, is_answer line = false) junk ∧
               lower (strip a) ∈ ["yes"; "y"]) →
            dry_run args = false →
            wp (deleted ← delete_items f d root false;
                print (nl +:+ "Deleted " +:+ pretty deleted.1 +:+ " file(s) and "
                       +:+ pretty deleted.2 +:+ " directory(ies).");;
                mret 0%Z) post w3) as Hdelete.
  { intros w3 Hq3 Hconfirmed Hdry.
    destruct (quiet_step_calls w w3 Hq3) as (Hfs3 & T3 & HT3 & Hu3 & Hr3).
    apply wp_bind, wp_delete_items_calls; [done|done|].
    intros w4 counts T4 HT4 Hu4 Hr4.
    apply wp_bind, wp_emit, wp_ret.
    eexists (T3 ++ T4 ++ [_]). split.
    { cbn [trace]. rewrite HT4, HT3. by rewrite <- !app_assoc. }
    right. split; [done|]. split; [done|]. exists f, d.
    rewrite !unlink_calls_app, !rmtree_calls_app, Hu3, Hr3, Hu4, Hr4.
    cbn. by rewrite !app_nil_r. }
  destruct (bool_decide (f = []) && bool_decide (d = [])).
  { by apply wp_ret, Hquiet. }
  destruct (dry_run args) eqn:Hdry.
  { apply wp_bind, prints_only_print. intros w3 Hq3 Hs3.
    apply wp_ret, Hquiet. by eapply quiet_step_trans. }
  apply wp_bind. destruct (yes args) eqn:Hyes; cbn [negb].
  - apply wp_ret. apply Hdelete; [done|by left|done].
  - apply wp_bind, wp_confirm_deletion_yes. intros w3 r Hq3 Hr.
    assert (quiet_step w w3) as Hq03 by (by eapply quiet_step_trans).
    rewrite Hs2 in Hr. change (stdin w1) with (stdin w) in Hr.
    destruct r as [[|]|e]; [| |by apply Hquiet].
    + apply wp_ret. cbn [negb]. apply Hdelete; [done| |done].
      right. by apply Hr.
    + apply wp_ret. cbn [negb].
      apply wp_bind, prints_only_print. intros w4 Hq4 Hs4.
      apply wp_ret, Hquiet. by eapply quiet_step_trans.
Qed.

(** X13.  [main] removes only what the scan found, and only when told
    to: either the run leaves the filesystem as it was and calls
    neither [Path.unlink] nor [shutil.rmtree], or the command line
    parsed, it is no dry run, it was started with [--yes] or the first
    answer on standard input is yes or y, and the removal calls of the
    run are [Path.unlink] on the files the scan of the root returned,
    in their order, and [shutil.rmtree] on the directories it returned,
    deepest first. *)
Theorem main_removes_only_confirmed_findings argv w :
  wf_node (fs w) = true →
  ∃ w' r T,
    main argv w = (w', r) ∧ trace w' = trace w ++ T ∧
    ((fs w' = fs w ∧ unlink_calls T = [] ∧ rmtree_calls T = []) ∨
     (∃ args, argparse argv = Parsed args ∧
      dry_run args = false ∧
      (yes args = true ∨
       ∃ junk a rest, stdin w = junk ++ a :: rest ∧
         Forall (λ line, is_answer line = false) junk ∧
         lower (strip a) ∈ ["yes"; "y"]) ∧
      ∃ f d,
        find_ignored_files (fs w) (resolve (directory args)) = Ok (f, d) ∧
        unlink_calls T = f ∧
        rmtree_calls T = sorted_key_reverse (λ p : Path, length p) d ∧
        r = Ok 0%Z)).
Proof.
  intros Hwf. destruct (argparse argv) as [args|status printed] eqn:Hparse.
  - rewrite (main_parsed argv args w Hparse).
    pose proof (main_body_removals args w Hwf) as Hwp. unfold wp in Hwp.
    destruct Hwp as (T & HT & Hcases).
    exists (main_body args w).1, (main_body args w).2, T.
    split; [by destruct (main_body args w)|]. split; [done|].
    destruct Hcases as [Hquiet|Hremoved]; [by left|].
    right. by exists args.
  - rewrite (main_exits argv status printed w Hparse).
    eexists _, _, _. split; [done|]. split; [done|]. left.
    split; [done|]. apply no_removal_calls, written_quiet.
Qed.

End EntryPointMore.

Section ClassifierRelations.
Context `{Matcher}.
Implicit Types (specs : gmap Path PathSpec) (root dirs : Path).

(** X18.  The directory test contains the file test: a path below the
    root that [is_file_ignored] classifies ignored is classified ignored
    by [is_directory_ignored] as well.  Both walk the same scopes, from
    the root to the parent, and the directory test asks each one about
    the path as written and also with a trailing slash. *)
Theorem file_ignored_is_directory_ignored specs root dirs x :
  x ≠ "/" →
  is_file_ignored (root ++ dirs ++ [x]) root specs = Ok true →
  is_directory_ignored (root ++ dirs ++ [x]) root specs = Ok true.
Proof.
  intros Hx. rewrite is_file_ignored_verdict by done.
  rewrite is_directory_ignored_verdict. intros [= Hv]. f_equal.
  apply file_verdict_true in Hv as (k & spec & Hk & Hspec & Hhit).
  apply dir_verdict_true. exists k, spec.
  rewrite length_app. cbn [length]. split; [lia|].
  rewrite take_app_le, drop_app_le by lia. split; [done|by right].
Qed.

(** X19.  The last block of [is_file_ignored], the check of the file's
    own directory, decides nothing.  When the loop falls through it
    stands at the parent of the file, and there the check of the final
    directory has asked the matcher of that directory about the file's
    name, which is the question the last block asks again. *)
Theorem own_directory_check_is_redundant specs root dirs x :
  x ≠ "/" →
  (is_file_ignored_loop (root ++ dirs ++ [x]) specs (parent (dirs ++ [x])) root
     = Ok (Returned true) ∨
   is_file_ignored_loop (root ++ dirs ++ [x]) specs (parent (dirs ++ [x])) root
     = Ok (Fallthrough (parent (root ++ dirs ++ [x])))) ∧
  file_scope_matches (root ++ dirs ++ [x]) (parent (root ++ dirs ++ [x])) specs =
    Ok (match specs !! parent (root ++ dirs ++ [x]) with
        | Some spec => match_file spec (name (root ++ dirs ++ [x]))
        | None => false
        end).
Proof.
  intros Hx. rewrite (app_assoc root dirs [x]).
  rewrite !parent_snoc, name_snoc by done.
  rewrite <- (app_assoc root dirs [x]). split.
  - rewrite is_file_ignored_loop_spec. destruct (existsb _ _); [by left|by right].
  - rewrite (app_assoc root dirs [x]), file_scope_matches_app.
    unfold file_scope_hit. by rewrite str_singleton.
Qed.

End ClassifierRelations.

(* ===================================================================== *)
(** ** The further properties on the sample tree *)
(* ===================================================================== *)

Lemma no_scope_not_ignored_witness :
  is_file_ignored (["/"; "other"] ++ ["a"] ++ ["f"]) ["/"; "other"] demo_specs
    = Ok false ∧
  is_directory_ignored (["/"; "other"] ++ ["a"] ++ ["f"]) ["/"; "other"]
    demo_specs = Ok false.
Proof.
  apply (no_scope_not_ignored demo_specs ["/"; "other"] ["a"] "f").
  - discriminate.
  - intros [|[|k]] Hk; [reflexivity|reflexivity|cbn in Hk; lia].
Defined.

Lemma more_scopes_never_unignore_witness :
  (is_file_ignored (demo_root ++ ["src"] ++ ["gen.c"]) demo_root demo_specs
     = Ok true →
   is_file_ignored (demo_root ++ ["src"] ++ ["gen.c"]) demo_root
     (<[demo_root ++ ["src"] := ["main.c"]]> demo_specs) = Ok true) ∧
  (is_directory_ignored (demo_root ++ ["src"] ++ ["gen.c"]) demo_root demo_specs
     = Ok true →
   is_directory_ignored (demo_root ++ ["src"] ++ ["gen.c"]) demo_root
     (<[demo_root ++ ["src"] := ["main.c"]]> demo_specs) = Ok true).
Proof.
  apply (more_scopes_never_unignore demo_specs
           (<[demo_root ++ ["src"] := ["main.c"]]> demo_specs)
           demo_root ["src"] "gen.c").
  - discriminate.
  - apply insert_subseteq. reflexivity.
Defined.

Lemma classifier_outside_root_witness :
  (∃ msg, is_file_ignored ["/"; "etc"; "passwd"] demo_root demo_specs
            = Raise (ValueError msg)) ∧
  (∃ msg, is_directory_ignored ["/"; "etc"; "passwd"] demo_root demo_specs
            = Raise (ValueError msg)).
Proof.
  apply (classifier_outside_root demo_specs demo_root ["/"; "etc"; "passwd"]).
  intros [rel Hrel]. discriminate Hrel.
Defined.

Lemma decision_pass_files_exactly_witness :
  wf_node demo_fs = true ∧
  ∀ p, p ∈ [demo_root ++ ["app.log"]; demo_root ++ ["tmp.log"];
            demo_root ++ ["src"; "gen.c"]] ↔
    ∃ q content, p = demo_root ++ q ∧ q ≠ [] ∧
      stat demo_fs p = Some (File content) ∧
      is_file_ignored p demo_root demo_specs = Ok true ∧
      reached demo_specs demo_root [] q.
Proof.
  split; [reflexivity|].
  apply (decision_pass_files_exactly demo_fs demo_root demo_specs demo_tree
           [demo_root ++ ["app.log"]; demo_root ++ ["tmp.log"];
            demo_root ++ ["src"; "gen.c"]]
           [demo_root ++ ["build"]]); vm_compute; reflexivity.
Defined.

Lemma decision_pass_directories_exactly_witness :
  wf_node demo_fs = true ∧
  ∀ p, p ∈ [demo_root ++ ["build"]] ↔
    ∃ q es, p = demo_root ++ q ∧ q ≠ [] ∧
      stat demo_fs p = Some (Dir es) ∧ last q ≠ Some ".git" ∧
      is_directory_ignored p demo_root demo_specs = Ok true ∧
      reached demo_specs demo_root [] q.
Proof.
  split; [reflexivity|].
  apply (decision_pass_directories_exactly demo_fs demo_root demo_specs
           demo_tree
           [demo_root ++ ["app.log"]; demo_root ++ ["tmp.log"];
            demo_root ++ ["src"; "gen.c"]]
           [demo_root ++ ["build"]]); vm_compute; reflexivity.
Defined.

Lemma git_directory_never_listed_witness :
  (∀ q i, demo_root ++ q ∈ [demo_root ++ ["app.log"]; demo_root ++ ["tmp.log"];
                            demo_root ++ ["src"; "gen.c"]] →
          S i < length q → q !! i ≠ Some ".git") ∧
  (∀ q i, demo_root ++ q ∈ [demo_root ++ ["build"]] → q !! i ≠ Some ".git").
Proof.
  apply (git_directory_never_listed demo_fs demo_root);
    vm_compute; reflexivity.
Defined.

Lemma root_never_listed_witness :
  (demo_root ∉ [demo_root ++ ["app.log"]; demo_root ++ ["tmp.log"];
                demo_root ++ ["src"; "gen.c"]] ++ [demo_root ++ ["build"]]) ∧
  (∀ p, p ∈ [demo_root ++ ["app.log"]; demo_root ++ ["tmp.log"];
             demo_root ++ ["src"; "gen.c"]] ++ [demo_root ++ ["build"]] →
        descendant_of p demo_root).
Proof.
  apply (root_never_listed demo_fs demo_root); vm_compute; reflexivity.
Defined.

Lemma find_ignored_files_is_collect_then_decide_witness :
  decision_pass demo_fs demo_root (∅ : gmap Path (@PathSpec exact_matcher))
    = Ok ([], []) ∧
  find_ignored_files demo_fs demo_root =
    (gitignore_specs ← collect_all_gitignore_specs demo_fs demo_root;
     decision_pass demo_fs demo_root gitignore_specs).
Proof.
  apply (find_ignored_files_is_collect_then_decide demo_fs demo_root).
  reflexivity.
Defined.

Lemma collector_rule_map_exactly_witness :
  ∃ m : gmap Path (@PathSpec exact_matcher),
    collect_all_gitignore_specs demo_fs demo_root = Ok m ∧
    ∀ p spec, m !! p = Some spec ↔
      ∃ lines, below demo_root p ∧ is_dir demo_fs p = true ∧
        stat demo_fs (joinpath p ".gitignore") = Some (File (Text lines)) ∧
        from_lines lines = Some spec.
Proof.
  eexists. split; [vm_compute; reflexivity|].
  apply (collector_rule_map_exactly demo_fs demo_root demo_tree);
    vm_compute; reflexivity.
Defined.


Lemma confirm_deletion_first_answer_witness :
  @confirm_deletion lenient_platform
    (World demo_fs ["maybe"; " Y "; "no"] []) =
  ({| fs := demo_fs; stdin := ["no"];
      trace := [] ++ reprompts ["maybe"] ++ [EStdout confirm_prompt] |},
   Ok (bool_decide (@lower lenient_platform (@strip lenient_platform " Y ")
                    ∈ ["yes"; "y"]))).
Proof.
  apply (proj1 (@confirm_deletion_first_answer lenient_platform
                  (World demo_fs ["maybe"; " Y "; "no"] []))
           ["maybe"] " Y " ["no"]).
  - reflexivity.
  - repeat constructor.
  - reflexivity.
Defined.

Lemma main_removes_only_confirmed_findings_witness :
  ∃ w' r T,
    @main exact_matcher lenient_platform demo_argv
      (World demo_fs ["what"; "y"] []) = (w', r) ∧
    trace w' = [] ++ T ∧
    ((fs w' = demo_fs ∧ unlink_calls T = [] ∧ rmtree_calls T = []) ∨
     (∃ args, @argparse lenient_platform demo_argv = Parsed args ∧
      dry_run args = false ∧
      (yes args = true ∨
       ∃ junk a rest, ["what"; "y"] = junk ++ a :: rest ∧
         Forall (λ line, @is_answer lenient_platform line = false) junk ∧
         @lower lenient_platform (@strip lenient_platform a) ∈ ["yes"; "y"]) ∧
      ∃ f d,
        find_ignored_files demo_fs
          (@resolve lenient_platform (directory args)) = Ok (f, d) ∧
        unlink_calls T = f ∧
        rmtree_calls T = sorted_key_reverse (λ p : Path, length p) d ∧
        r = Ok 0%Z)).
Proof.
  apply (@main_removes_only_confirmed_findings exact_matcher lenient_platform
           demo_argv (World demo_fs ["what"; "y"] [])).
  reflexivity.
Defined.

Lemma delete_items_files_before_directories_witness :
  ∃ w' counts Tf Td,
    @delete_items readonly_platform
      [demo_root ++ ["app.log"]; demo_root ++ ["tmp.log"]]
      [demo_root ++ ["build"]; demo_root ++ ["src"; "gen"]]
      demo_root false (World demo_fs [] []) = (w', Ok counts) ∧
    trace w' = [] ++ Tf ++ Td ∧
    unlink_calls Tf = [demo_root ++ ["app.log"]; demo_root ++ ["tmp.log"]] ∧
    rmtree_calls Tf = [] ∧
    unlink_calls Td = [] ∧
    rmtree_calls Td =
      sorted_key_reverse (λ p : Path, length p)
        [demo_root ++ ["build"]; demo_root ++ ["src"; "gen"]].
Proof.
  apply (@delete_items_files_before_directories readonly_platform
           [demo_root ++ ["app.log"]; demo_root ++ ["tmp.log"]]
           [demo_root ++ ["build"]; demo_root ++ ["src"; "gen"]]
           demo_root (World demo_fs [] [])).
  - repeat constructor; [by exists ["app.log"]|by exists ["tmp.log"]].
  - repeat constructor; [by exists ["build"]|by exists ["src"; "gen"]].
Defined.

Lemma delete_items_outside_root_aborts_witness :
  ∃ w' msg T,
    @delete_items lenient_platform
      ([demo_root ++ ["app.log"]] ++ ["/"; "etc"; "passwd"] ::
         [demo_root ++ ["tmp.log"]])
      [demo_root ++ ["build"]] demo_root false (World demo_fs [] []) =
      (w', Raise (ValueError msg)) ∧
    trace w' = [] ++ T ∧
    unlink_calls T = [demo_root ++ ["app.log"]] ∧ rmtree_calls T = [].
Proof.
  apply (@delete_items_outside_root_aborts lenient_platform
           [demo_root ++ ["app.log"]] ["/"; "etc"; "passwd"]
           [demo_root ++ ["tmp.log"]] [demo_root ++ ["build"]]
           demo_root (World demo_fs [] [])).
  - repeat constructor. by exists ["app.log"].
  - intros [rel Hrel]. discriminate Hrel.
Defined.



Lemma file_ignored_is_directory_ignored_witness :
  is_directory_ignored (demo_root ++ ["src"] ++ ["gen.c"]) demo_root demo_specs
    = Ok true.
Proof.
  apply (file_ignored_is_directory_ignored demo_specs demo_root ["src"] "gen.c").
  - discriminate.
  - reflexivity.
Defined.

Lemma own_directory_check_is_redundant_witness :
  (is_file_ignored_loop (demo_root ++ ["src"] ++ ["gen.c"]) demo_specs
     (parent (["src"] ++ ["gen.c"])) demo_root = Ok (Returned true) ∨
   is_file_ignored_loop (demo_root ++ ["src"] ++ ["gen.c"]) demo_specs
     (parent (["src"] ++ ["gen.c"])) demo_root
     = Ok (Fallthrough (parent (demo_root ++ ["src"] ++ ["gen.c"])))) ∧
  file_scope_matches (demo_root ++ ["src"] ++ ["gen.c"])
    (parent (demo_root ++ ["src"] ++ ["gen.c"])) demo_specs =
    Ok (match demo_specs !! parent (demo_root ++ ["src"] ++ ["gen.c"]) with
        | Some spec => match_file spec (name (demo_root ++ ["src"] ++ ["gen.c"]))
        | None => false
        end).
Proof.
  apply (own_directory_check_is_redundant demo_specs demo_root ["src"] "gen.c").
  discriminate.
Defined.
